(** * Product dashboard (script.js): search, sort, pagination and rendering

    A shallow embedding of [script.js].  The script keeps its state in
    module-level variables ([allProducts], [filteredProducts], [currentPage],
    [itemsPerPage], [sortConfig]) and in the DOM nodes it writes to; both are
    fields of one [state] record here and every function of the script is a
    function from states to states.

    Arrays are JavaScript objects with identity: [allProducts] and
    [filteredProducts] are references into a store of arrays, and
    [Array.prototype.sort] updates the store in place.

    Numbers: page numbers, page sizes, array lengths and indices are integers
    far below 2^53, on which the arithmetic of the script is exact; they are
    [Z] here.  Strings are sequences of code units; the model covers the code
    units below 256, one [ascii] each. *)

From Stdlib Require Import ZArith Ascii String.
From stdpp Require Import base numbers list strings gmap sorting.

Local Open Scope Z_scope.

(** ** Strings: the methods of [String.prototype] the script calls *)

Module JsString.

Definition code (c : ascii) : N := N_of_ascii c.

(** Upper-case letters below U+0100: A..Z, and U+00C0..U+00DE without the
    multiplication sign U+00D7.  Their lower-case forms lie 32 above. *)
Definition isUpper (c : ascii) : bool :=
  let n := code c in
  ((65 <=? n) && (n <=? 90)
   || (192 <=? n) && (n <=? 222) && negb (n =? 215))%N.

Definition toLowerChar (c : ascii) : ascii :=
  if isUpper c then ascii_of_N (code c + 32) else c.

(** [s.toLowerCase()] *)
Fixpoint toLowerCase (s : string) : string :=
  match s with
  | EmptyString => EmptyString
  | String c s' => String (toLowerChar c) (toLowerCase s')
  end.

(** White space and line terminators below U+0100: TAB, LF, VT, FF, CR,
    SPACE and NBSP. *)
Definition isWhiteSpace (c : ascii) : bool :=
  let n := code c in
  ((9 <=? n) && (n <=? 13) || (n =? 32) || (n =? 160))%N.

Fixpoint trimStart (s : string) : string :=
  match s with
  | EmptyString => EmptyString
  | String c s' => if isWhiteSpace c then trimStart s' else s
  end.

Fixpoint trimEnd (s : string) : string :=
  match s with
  | EmptyString => EmptyString
  | String c s' =>
      match trimEnd s' with
      | EmptyString => if isWhiteSpace c then EmptyString else String c EmptyString
      | r => String c r
      end
  end.

(** [s.trim()] *)
Definition trim (s : string) : string := trimEnd (trimStart s).

(** [s.startsWith(t)] *)
Definition startsWith (s t : string) : bool := String.prefix t s.

(** [s.includes(t)]: [t] occurs in [s] at some position. *)
Fixpoint includes (s t : string) : bool :=
  startsWith s t ||
  match s with
  | EmptyString => false
  | String _ s' => includes s' t
  end.

(** ["" ] is falsy, every other string is truthy. *)
Definition truthy (s : string) : bool :=
  match s with EmptyString => false | String _ _ => true end.

End JsString.

(** ** Products *)

(** The [images] field as [createTableRow] inspects it: falsy (absent or
    null), a value that is not an array, or an array of strings. *)
Inductive images_field :=
| ImagesAbsent
| ImagesNotArray
| ImagesArray (urls : list string).

Record product := {
  id : Z;
  title : string;
  price : Z;
  description : option string;
  category : option string;       (* category?.name *)
  images : images_field
}.

(** ** Rows *)

(** A cell text that is either taken from the product or the fixed fallback
    label of the script. *)
Inductive cell_text :=
| Given (s : string)
| Fallback.

Record row := {
  row_id : Z;
  row_image : string;
  row_alt : string;
  row_title : string;
  row_description : cell_text;
  row_price : Z;
  row_category : cell_text
}.

Definition placeholder : string := "https://via.placeholder.com/100?text=No+Image".

(** The image URL of [createTableRow] (script.js, lines 191-208). *)
Definition imageUrl (p : product) : string :=
  match images p with
  | ImagesArray (firstImage :: _) =>
      let url := JsString.trim firstImage in
      if negb (JsString.truthy url) || negb (JsString.startsWith url "http")
      then placeholder
      else url
  | _ => placeholder
  end.

(** [x || fallback] on an optional string. *)
Definition orFallback (x : option string) : cell_text :=
  match x with
  | Some s => if JsString.truthy s then Given s else Fallback
  | None => Fallback
  end.

(** [createTableRow(product, rowNumber)]; the row number is passed but the
    first cell shows [product.id]. *)
Definition createTableRow (p : product) (rowNumber : Z) : row :=
  {| row_id := id p;
     row_image := imageUrl p;
     row_alt := title p;
     row_title := title p;
     row_description := orFallback (description p);
     row_price := price p;
     row_category := orFallback (category p) |}.

(** ** Arrays: the methods of [Array.prototype] the script calls *)

Module JsArray.
Section Methods.
Context {A : Type}.

(** [a.filter(f)]: a new array with the elements [f] accepts, in order. *)
Definition filter (f : A → bool) (a : list A) : list A := List.filter f a.

(** An index argument of [slice] made absolute: a negative index counts
    from the end, and the result is clamped to [0, len]. *)
Definition relativeIndex (len i : Z) : Z :=
  if i <? 0 then Z.max (len + i) 0 else Z.min i len.

(** [a.slice(start, end)] *)
Definition slice (a : list A) (start end_ : Z) : list A :=
  let len := Z.of_nat (length a) in
  let k := relativeIndex len start in
  let final := relativeIndex len end_ in
  take (Z.to_nat (final - k)) (drop (Z.to_nat k) a).

(** [a.sort(cmp)] sorts by the sign of [cmp] and is stable (ECMAScript
    2019 and later).  For a consistent comparator the result of a stable
    sort is the same for every algorithm; this is insertion from the
    right: an element goes in front of the first later element that does
    not come strictly before it. *)
Fixpoint insert (cmp : A → A → Z) (x : A) (a : list A) : list A :=
  match a with
  | [] => [x]
  | y :: a' => if 0 <? cmp x y then y :: insert cmp x a' else x :: a
  end.

Fixpoint sort (cmp : A → A → Z) (a : list A) : list A :=
  match a with
  | [] => []
  | x :: a' => insert cmp x (sort cmp a')
  end.
End Methods.
End JsArray.

(** [Math.ceil(x / y)] on integers: the quotient rounded up ([Z.div] rounds
    down).  A page size is a positive integer; a zero divisor, where
    JavaScript gives an infinity or NaN, is outside the model. *)
Definition Math_ceil_div (x y : Z) : Z := - ((- x) / y).

(** ** The page: state of the script and of the DOM nodes it writes *)

Definition loc := nat.

Inductive sort_direction := asc | desc.

Record sort_config := {
  column : option string;         (* null, or the data-sort of a button *)
  direction : sort_direction
}.

(** What [tableBody] holds: the markup of the HTML file, nothing, the
    no-data row, the error row, or product rows. *)
Inductive tbody :=
| StaticBody
| EmptyBody
| NoDataRow
| ErrorRow
| Rows (rs : list row).

(** The text of [pageInfo]. *)
Inductive info_text :=
| StaticInfo
| NoDataInfo
| PageOf (current total : Z).

Record view := {
  tableBody : tbody;
  pageInfo : info_text;
  prevBtn_disabled : bool;
  nextBtn_disabled : bool;
  loading_active : bool;          (* loadingIndicator has class [active] *)
  scroll : Z * Z                  (* window scroll position *)
}.

Record state := {
  store : gmap loc (list product);
  allProducts : loc;
  filteredProducts : loc;
  currentPage : Z;
  itemsPerPage : Z;
  sortConfig : sort_config;
  page : view
}.

(** The array a reference points to. *)
Definition contents (s : state) (l : loc) : list product :=
  default [] (store s !! l).

(** A new array: a reference that is not in use yet. *)
Definition alloc (a : list product) (h : gmap loc (list product))
  : loc * gmap loc (list product) :=
  let l := fresh (dom h) in (l, <[l := a]> h).

(** Field updates. *)
Definition set_store h (s : state) : state :=
  {| store := h; allProducts := allProducts s;
     filteredProducts := filteredProducts s; currentPage := currentPage s;
     itemsPerPage := itemsPerPage s; sortConfig := sortConfig s; page := page s |}.
Definition set_allProducts l (s : state) : state :=
  {| store := store s; allProducts := l;
     filteredProducts := filteredProducts s; currentPage := currentPage s;
     itemsPerPage := itemsPerPage s; sortConfig := sortConfig s; page := page s |}.
Definition set_filteredProducts l (s : state) : state :=
  {| store := store s; allProducts := allProducts s;
     filteredProducts := l; currentPage := currentPage s;
     itemsPerPage := itemsPerPage s; sortConfig := sortConfig s; page := page s |}.
Definition set_currentPage n (s : state) : state :=
  {| store := store s; allProducts := allProducts s;
     filteredProducts := filteredProducts s; currentPage := n;
     itemsPerPage := itemsPerPage s; sortConfig := sortConfig s; page := page s |}.
Definition set_itemsPerPage n (s : state) : state :=
  {| store := store s; allProducts := allProducts s;
     filteredProducts := filteredProducts s; currentPage := currentPage s;
     itemsPerPage := n; sortConfig := sortConfig s; page := page s |}.
Definition set_sortConfig c (s : state) : state :=
  {| store := store s; allProducts := allProducts s;
     filteredProducts := filteredProducts s; currentPage := currentPage s;
     itemsPerPage := itemsPerPage s; sortConfig := c; page := page s |}.
Definition set_page v (s : state) : state :=
  {| store := store s; allProducts := allProducts s;
     filteredProducts := filteredProducts s; currentPage := currentPage s;
     itemsPerPage := itemsPerPage s; sortConfig := sortConfig s; page := v |}.

Definition set_tableBody b (v : view) : view :=
  {| tableBody := b; pageInfo := pageInfo v;
     prevBtn_disabled := prevBtn_disabled v; nextBtn_disabled := nextBtn_disabled v;
     loading_active := loading_active v; scroll := scroll v |}.
Definition set_controls i p n (v : view) : view :=
  {| tableBody := tableBody v; pageInfo := i;
     prevBtn_disabled := p; nextBtn_disabled := n;
     loading_active := loading_active v; scroll := scroll v |}.
Definition set_loading b (v : view) : view :=
  {| tableBody := tableBody v; pageInfo := pageInfo v;
     prevBtn_disabled := prevBtn_disabled v; nextBtn_disabled := nextBtn_disabled v;
     loading_active := b; scroll := scroll v |}.
Definition set_scroll xy (v : view) : view :=
  {| tableBody := tableBody v; pageInfo := pageInfo v;
     prevBtn_disabled := prevBtn_disabled v; nextBtn_disabled := nextBtn_disabled v;
     loading_active := loading_active v; scroll := xy |}.

(** The state after the declarations of lines 5-12: two distinct empty
    arrays, page 1, ten items per page, no sort column.  The DOM is as the
    HTML file leaves it, [v0]. *)
Definition init (v0 : view) : state :=
  let '(la, h1) := alloc [] ∅ in
  let '(lf, h2) := alloc [] h1 in
  {| store := h2; allProducts := la; filteredProducts := lf;
     currentPage := 1; itemsPerPage := 10;
     sortConfig := {| column := None; direction := asc |};
     page := v0 |}.

(** The products a state filters and shows. *)
Definition allList (s : state) : list product := contents s (allProducts s).
Definition filteredList (s : state) : list product := contents s (filteredProducts s).
Definition filteredCount (s : state) : Z := Z.of_nat (length (filteredList s)).

(** [Math.ceil(filteredProducts.length / itemsPerPage)] *)
Definition totalPages (s : state) : Z :=
  Math_ceil_div (filteredCount s) (itemsPerPage s).

(** [showLoading(show)] *)
Definition showLoading (show : bool) (s : state) : state :=
  set_page (set_loading show (page s)) s.

(** [updatePaginationControls()] *)
Definition updatePaginationControls (s : state) : state :=
  let info :=
    if filteredCount s =? 0 then NoDataInfo
    else PageOf (currentPage s) (totalPages s) in
  let prev := currentPage s =? 1 in
  let next := (currentPage s >=? totalPages s) || (filteredCount s =? 0) in
  set_page (set_controls info prev next (page s)) s.

(** The slice of [filteredProducts] that [renderTable] shows. *)
Definition startIndex (s : state) : Z := (currentPage s - 1) * itemsPerPage s.
Definition endIndex (s : state) : Z := startIndex s + itemsPerPage s.
Definition pageData (s : state) : list product :=
  JsArray.slice (filteredList s) (startIndex s) (endIndex s).

(** [renderTable()] *)
Definition renderTable (s : state) : state :=
  let cleared := set_page (set_tableBody EmptyBody (page s)) s in
  if Z.of_nat (length (pageData s)) =? 0 then
    updatePaginationControls
      (set_page (set_tableBody NoDataRow (page cleared)) cleared)
  else
    let rows :=
      imap (λ index p, createTableRow p (startIndex s + Z.of_nat index + 1))
           (pageData s) in
    updatePaginationControls
      (set_page (set_tableBody (Rows rows) (page cleared)) cleared).

(** [filterProducts(searchTerm)] *)
Definition filterProducts (searchTerm : string) (s : state) : state :=
  let result :=
    if String.eqb searchTerm "" then allList s
    else JsArray.filter
           (λ p, JsString.includes (JsString.toLowerCase (title p)) searchTerm)
           (allList s) in
  let '(l, h) := alloc result (store s) in
  renderTable (set_currentPage 1 (set_filteredProducts l (set_store h s))).

(** [previousPage()] *)
Definition previousPage (s : state) : state :=
  if currentPage s >? 1 then
    let s1 := renderTable (set_currentPage (currentPage s - 1) s) in
    set_page (set_scroll (0, 0) (page s1)) s1
  else s.

(** [nextPage()] *)
Definition nextPage (s : state) : state :=
  if currentPage s <? totalPages s then
    let s1 := renderTable (set_currentPage (currentPage s + 1) s) in
    set_page (set_scroll (0, 0) (page s1)) s1
  else s.

(** The listener of the page-size select (lines 75-79); [n] is the parsed
    value of the chosen option. *)
Definition onItemsPerPageChange (n : Z) (s : state) : state :=
  renderTable (set_currentPage 1 (set_itemsPerPage n s)).

(** The listener of the search box (lines 69-72). *)
Definition onSearchInput (value : string) (s : state) : state :=
  filterProducts (JsString.trim (JsString.toLowerCase value)) s.

(** What [fetch] and [response.json()] can do: the request is rejected, or a
    response arrives with a status and a body that parses to an array of
    products or does not parse. *)
Inductive fetch_outcome :=
| Rejected
| Response (status : Z) (body : option (list product)).

(** [response.ok] *)
Definition ok (status : Z) : bool := (200 <=? status) && (status <=? 299).

(** The products [getAll] gets, or nothing when it throws. *)
Definition fetched (r : fetch_outcome) : option (list product) :=
  match r with
  | Rejected => None
  | Response status body => if ok status then body else None
  end.

(** ** Sorting, fetching and the event loop

    [String.prototype.localeCompare] is the collation of the host; the
    script is modelled over any such function. *)

Section Dashboard.

Variable localeCompare : string → string → Z.

Definition columnIs (c : sort_config) (name : string) : bool :=
  match column c with
  | Some x => String.eqb x name
  | None => false
  end.

(** The comparator of [sortProducts] (lines 131-149).  A price [n] is a
    number, [parseFloat] gives it back, and the difference of two numbers
    has the sign of their exact difference. *)
Definition compareProducts (c : sort_config) (a b : product) : Z :=
  if columnIs c "title" then
    let aValue := JsString.toLowerCase (title a) in
    let bValue := JsString.toLowerCase (title b) in
    match direction c with
    | asc => localeCompare aValue bValue
    | desc => localeCompare bValue aValue
    end
  else if columnIs c "price" then
    let aValue := price a in
    let bValue := price b in
    match direction c with
    | asc => aValue - bValue
    | desc => bValue - aValue
    end
  else 0.

(** [sortProducts()]: sorts the array [filteredProducts] points to, in
    place. *)
Definition sortProducts (s : state) : state :=
  set_store
    (<[filteredProducts s :=
         JsArray.sort (compareProducts (sortConfig s)) (filteredList s)]>
       (store s))
    s.

(** [handleSort(column)] *)
Definition handleSort (col : string) (s : state) : state :=
  let c := sortConfig s in
  let c' :=
    if decide (column c = Some col) then
      {| column := column c;
         direction := match direction c with asc => desc | desc => asc end |}
    else {| column := Some col; direction := asc |} in
  renderTable (set_currentPage 1 (sortProducts (set_sortConfig c' s))).

(** [getAll()] up to its first [await]. *)
Definition getAll_start (s : state) : state := showLoading true s.

(** [getAll()] from the point where the request has settled with [r]:
    the body of [try] on success, the [catch] block otherwise. *)
Definition getAll_settle (r : fetch_outcome) (s : state) : state :=
  match fetched r with
  | Some products =>
      let '(la, h1) := alloc products (store s) in
      let '(lf, h2) := alloc products h1 in
      showLoading false
        (renderTable
           (set_currentPage 1
              (set_filteredProducts lf (set_allProducts la (set_store h2 s)))))
  | None =>
      let s1 := showLoading false s in
      set_page (set_tableBody ErrorRow (page s1)) s1
  end.

(** What the user can do once the listeners are set up. *)
Inductive user_event :=
| SearchInput (value : string)
| ItemsPerPageChange (n : Z)
| SortClick (col : string)
| PrevClick
| NextClick.

Inductive event :=
| User (u : user_event)
| FetchSettled (r : fetch_outcome).

Definition user_step (u : user_event) (s : state) : state :=
  match u with
  | SearchInput value => onSearchInput value s
  | ItemsPerPageChange n => onItemsPerPageChange n s
  | SortClick col => handleSort col s
  | PrevClick => previousPage s
  | NextClick => nextPage s
  end.

Definition step (e : event) (s : state) : state :=
  match e with
  | User u => user_step u s
  | FetchSettled r => getAll_settle r s
  end.

(** The events of a list, oldest first. *)
Definition run (es : list event) (s : state) : state :=
  foldl (λ s e, step e s) s es.

(** The state when [DOMContentLoaded] has been handled: [getAll] has sent
    its request and the listeners are set up. *)
Definition loaded (v0 : view) : state := getAll_start (init v0).

(** The page sizes the select offers are positive. *)
Definition valid_event (e : event) : Prop :=
  match e with
  | User (ItemsPerPageChange n) => 0 < n
  | _ => True
  end.

End Dashboard.

(** ** Notions the properties are stated with *)

(** [s] contains [t] when case is ignored. *)
Definition containsIgnoreCase (s t : string) : bool :=
  JsString.includes (JsString.toLowerCase s) (JsString.toLowerCase t).

(** A consistent comparator, as [Array.prototype.sort] needs it: its sign is
    antisymmetric and "not after" is transitive. *)
Definition consistent {A : Type} (cmp : A → A → Z) : Prop :=
  (∀ a b, Z.sgn (cmp a b) = - Z.sgn (cmp b a)) ∧
  (∀ a b c, cmp a b <= 0 → cmp b c <= 0 → cmp a c <= 0).

(** The current page is one of the pages there are. *)
Definition page_in_range (s : state) : Prop :=
  1 <= currentPage s <= Z.max 1 (totalPages s).

(** Both arrays exist and are two different arrays. *)
Definition separate (s : state) : Prop :=
  allProducts s ∈ dom (store s) ∧
  filteredProducts s ∈ dom (store s) ∧
  allProducts s ≠ filteredProducts s.

(** The sort configuration after a click on the price column. *)
Definition byPrice (d : sort_direction) : sort_config :=
  {| column := Some "price"; direction := d |}.

(** Code-unit order, a collation to run the script with. *)
Definition codeUnitCompare (a b : string) : Z :=
  match String.compare a b with
  | Lt => -1
  | Eq => 0
  | Gt => 1
  end.

(** A page whose HTML has not been touched, and a few products. *)
Definition blank : view :=
  {| tableBody := StaticBody; pageInfo := StaticInfo;
     prevBtn_disabled := false; nextBtn_disabled := false;
     loading_active := false; scroll := (0, 0) |}.

Definition item (n : Z) (name : string) (cost : Z) : product :=
  {| id := n; title := name; price := cost; description := None;
     category := None; images := ImagesAbsent |}.

Definition pictured (urls : list string) : product :=
  {| id := 0; title := "picture"; price := 0; description := None;
     category := None; images := ImagesArray urls |}.

Definition catalog : list product :=
  [item 1 "Banana" 30; item 2 "apple" 10; item 3 "Cherry" 20; item 4 "Apricot" 10].

(** The page after a fetch that brought [catalog]. *)
Definition shop : state := getAll_settle (Response 200 (Some catalog)) (loaded blank).

(** Twenty-five products, numbered from 1. *)
Definition stock : list product := (λ n, item n "product" (1000 * n)) <$> seqZ 1 25.

Definition warehouse : state := getAll_settle (Response 200 (Some stock)) (loaded blank).

(** A session: the catalog arrives, the user picks two items per page and
    goes to the next page. *)
Definition session : list event :=
  [FetchSettled (Response 200 (Some catalog));
   User (ItemsPerPageChange 2);
   User NextClick].

(** Every code unit of [s] is white space. *)
Fixpoint allWhiteSpace (s : string) : bool :=
  match s with
  | EmptyString => true
  | String c s' => JsString.isWhiteSpace c && allWhiteSpace s'
  end.

(** The slice [renderTable] would show on page [k]. *)
Definition pageAt (k : Z) (s : state) : list product :=
  pageData (set_currentPage k s).

(** A product with a given price, to compare prices with. *)
Definition priced (q : Z) : product := item 0 "" q.

(** ** Strings *)

Lemma startsWith_empty s : JsString.startsWith s "" = true.
Proof. by destruct s. Qed.

Lemma includes_empty s : JsString.includes s "" = true.
Proof. destruct s; simpl; by rewrite ?startsWith_empty. Qed.

Lemma isWhiteSpace_toLowerChar c :
  JsString.isWhiteSpace (JsString.toLowerChar c) = JsString.isWhiteSpace c.
Proof.
  destruct c as [[] [] [] [] [] [] [] []]; vm_compute; reflexivity.
Qed.

Lemma toLowerCase_trimStart s :
  JsString.toLowerCase (JsString.trimStart s)
  = JsString.trimStart (JsString.toLowerCase s).
Proof.
  induction s as [|c s IH]; simpl; [done|].
  rewrite isWhiteSpace_toLowerChar.
  by destruct (JsString.isWhiteSpace c).
Qed.

Lemma toLowerCase_trimEnd s :
  JsString.toLowerCase (JsString.trimEnd s)
  = JsString.trimEnd (JsString.toLowerCase s).
Proof.
  induction s as [|c s IH]; simpl; [done|].
  rewrite <- IH, isWhiteSpace_toLowerChar.
  destruct (JsString.trimEnd s); simpl; [|done].
  by destruct (JsString.isWhiteSpace c).
Qed.

Lemma toLowerCase_trim s :
  JsString.toLowerCase (JsString.trim s) = JsString.trim (JsString.toLowerCase s).
Proof.
  unfold JsString.trim. by rewrite toLowerCase_trimEnd, toLowerCase_trimStart.
Qed.

Lemma toLowerChar_idemp c :
  JsString.toLowerChar (JsString.toLowerChar c) = JsString.toLowerChar c.
Proof.
  destruct c as [[] [] [] [] [] [] [] []]; vm_compute; reflexivity.
Qed.

Lemma toLowerCase_idemp s :
  JsString.toLowerCase (JsString.toLowerCase s) = JsString.toLowerCase s.
Proof. induction s; simpl; by rewrite ?toLowerChar_idemp, ?IHs. Qed.

(** ** Rendering leaves the script's variables alone *)

Lemma renderTable_page s : ∃ v, renderTable s = set_page v s.
Proof.
  unfold renderTable, updatePaginationControls.
  destruct (Z.of_nat (length (pageData s)) =? 0); eexists; reflexivity.
Qed.

Ltac render_fields :=
  match goal with
  | |- context [renderTable ?s] =>
      let v := fresh "v" in let E := fresh "E" in
      destruct (renderTable_page s) as [v E]; rewrite E; clear E
  end.

Lemma renderTable_store s : store (renderTable s) = store s.
Proof. by render_fields. Qed.
Lemma renderTable_allProducts s : allProducts (renderTable s) = allProducts s.
Proof. by render_fields. Qed.
Lemma renderTable_filteredProducts s :
  filteredProducts (renderTable s) = filteredProducts s.
Proof. by render_fields. Qed.
Lemma renderTable_currentPage s : currentPage (renderTable s) = currentPage s.
Proof. by render_fields. Qed.
Lemma renderTable_itemsPerPage s : itemsPerPage (renderTable s) = itemsPerPage s.
Proof. by render_fields. Qed.
Lemma renderTable_sortConfig s : sortConfig (renderTable s) = sortConfig s.
Proof. by render_fields. Qed.
Lemma renderTable_filteredList s : filteredList (renderTable s) = filteredList s.
Proof. by render_fields. Qed.
Lemma renderTable_allList s : allList (renderTable s) = allList s.
Proof. by render_fields. Qed.
Lemma renderTable_totalPages s : totalPages (renderTable s) = totalPages s.
Proof. by render_fields. Qed.

(** ** Searching *)

Lemma contents_alloc a s :
  contents (set_store (alloc a (store s)).2 s) (alloc a (store s)).1 = a.
Proof. unfold contents, alloc; simpl. by rewrite lookup_insert_eq. Qed.

Lemma filterProducts_filteredList t s :
  filteredList (filterProducts t s)
  = if String.eqb t "" then allList s
    else JsArray.filter
           (λ p, JsString.includes (JsString.toLowerCase (title p)) t)
           (allList s).
Proof.
  unfold filterProducts, alloc.
  rewrite renderTable_filteredList.
  unfold filteredList, contents; simpl.
  by rewrite lookup_insert_eq.
Qed.

Lemma filter_all {A} (f : A → bool) (l : list A) :
  (∀ x, f x = true) → JsArray.filter f l = l.
Proof.
  intros Hf. induction l as [|x l IH]; simpl; [done|].
  unfold JsArray.filter in *. simpl. by rewrite Hf, IH.
Qed.

Lemma filter_sublist {A} (f : A → bool) (l : list A) :
  sublist (JsArray.filter f l) l.
Proof.
  unfold JsArray.filter.
  induction l as [|x l IH]; simpl; [constructor|].
  destruct (f x); by constructor.
Qed.

Lemma filterProducts_includes t s :
  filteredList (filterProducts t s)
  = JsArray.filter
      (λ p, JsString.includes (JsString.toLowerCase (title p)) t) (allList s).
Proof.
  rewrite filterProducts_filteredList.
  destruct (String.eqb_spec t "") as [->|]; [|done].
  symmetry. apply filter_all. intros p. apply includes_empty.
Qed.

(** C1, as the script has it.  The listener of the search box lower-cases
    and trims what was typed before it filters: the products kept are
    exactly those whose title contains the trimmed text when case is
    ignored, in the order of the full list; the empty text keeps the full
    list; and [filterProducts] itself keeps the products whose lower-cased
    title includes the term it is given, as it is. *)
Theorem search_keeps_titles_containing_trimmed_term (value : string) (s : state) :
  filteredList (onSearchInput value s)
  = JsArray.filter (λ p, containsIgnoreCase (title p) (JsString.trim value))
                   (allList s)
  ∧ sublist (filteredList (onSearchInput value s)) (allList s)
  ∧ filteredList (onSearchInput "" s) = allList s
  ∧ (∀ t, filteredList (filterProducts t s)
          = JsArray.filter
              (λ p, JsString.includes (JsString.toLowerCase (title p)) t)
              (allList s)).
Proof.
  assert (E : filteredList (onSearchInput value s)
    = JsArray.filter (λ p, containsIgnoreCase (title p) (JsString.trim value))
                     (allList s)).
  { unfold onSearchInput, containsIgnoreCase.
    by rewrite filterProducts_includes, toLowerCase_trim. }
  split; [exact E|]. split; [rewrite E; apply filter_sublist|].
  split; [|intros t; apply filterProducts_includes].
  unfold onSearchInput. simpl. by rewrite filterProducts_filteredList.
Qed.

(** C1 as stated fails.  Typing [" a"] keeps "Banana", whose title does not
    contain [" a"]; and [filterProducts], given ["A"], drops "apple" and
    "Apricot", whose titles contain ["A"] when case is ignored. *)
Lemma search_term_is_not_matched_as_typed :
  filteredList (onSearchInput " a" shop)
    ≠ JsArray.filter (λ p, containsIgnoreCase (title p) " a") (allList shop)
  ∧ filteredList (filterProducts "A" shop)
    ≠ JsArray.filter (λ p, containsIgnoreCase (title p) "A") (allList shop).
Proof. split; vm_compute; discriminate. Qed.

(** ** Image of a row *)

(** C9.  The image of a row is the trimmed first entry of [images] when that
    is an array with a first entry whose trimmed form starts with [http];
    otherwise it is the placeholder.  [createTableRow] is total. *)
Theorem row_image_resolved (p : product) (rowNumber : Z) :
  row_image (createTableRow p rowNumber)
  = match images p with
    | ImagesArray (firstImage :: _) =>
        if JsString.startsWith (JsString.trim firstImage) "http"
        then JsString.trim firstImage
        else placeholder
    | ImagesAbsent | ImagesNotArray | ImagesArray [] => placeholder
    end.
Proof.
  unfold createTableRow, imageUrl; simpl.
  destruct (images p) as [| |[|u us]]; try reflexivity.
  destruct (JsString.trim u) as [|c u'] eqn:E; [reflexivity|].
  cbn [JsString.truthy negb orb].
  by destruct (JsString.startsWith (String c u') "http").
Qed.

(** A padded absolute URL is trimmed and kept; a protocol-relative URL, a
    data URL, an empty entry and a product without images get the
    placeholder. *)
Example row_image_cases :
  imageUrl (pictured ["  https://cdn.example.com/a.png "; "x"])
    = "https://cdn.example.com/a.png"
  ∧ imageUrl (pictured ["//cdn.example.com/a.png"]) = placeholder
  ∧ imageUrl (pictured ["data:image/png;base64,AAAA"]) = placeholder
  ∧ imageUrl (pictured ["   "]) = placeholder
  ∧ imageUrl (pictured []) = placeholder
  ∧ imageUrl (item 1 "x" 1) = placeholder.
Proof. repeat split. Qed.

(** ** Stable sorting with a consistent comparator *)

Section StableSort.
Context {A : Type} (cmp : A → A → Z).
Hypothesis cmp_consistent : consistent cmp.

Lemma cmp_antisym a b : Z.sgn (cmp a b) = - Z.sgn (cmp b a).
Proof. apply cmp_consistent. Qed.

Lemma cmp_trans a b c : cmp a b <= 0 → cmp b c <= 0 → cmp a c <= 0.
Proof. apply cmp_consistent. Qed.

Lemma cmp_refl a : cmp a a = 0.
Proof. pose proof (cmp_antisym a a). lia. Qed.

Lemma cmp_flip_pos a b : 0 < cmp a b ↔ cmp b a < 0.
Proof. pose proof (cmp_antisym a b). lia. Qed.

Lemma cmp_flip_zero a b : cmp a b = 0 ↔ cmp b a = 0.
Proof. pose proof (cmp_antisym a b). lia. Qed.

Lemma insert_perm x l : JsArray.insert cmp x l ≡ₚ x :: l.
Proof.
  induction l as [|y l IH]; simpl; [done|].
  destruct (0 <? cmp x y); [|done].
  rewrite IH. apply Permutation_swap.
Qed.

Lemma sort_perm l : JsArray.sort cmp l ≡ₚ l.
Proof.
  induction l as [|x l IH]; simpl; [done|].
  by rewrite insert_perm, IH.
Qed.

Lemma insert_sorted x l :
  StronglySorted (λ a b, cmp a b <= 0) l →
  StronglySorted (λ a b, cmp a b <= 0) (JsArray.insert cmp x l).
Proof.
  induction 1 as [|y l Hl IH Hy]; simpl.
  - repeat constructor.
  - destruct (Z.ltb_spec 0 (cmp x y)) as [Hxy|Hxy].
    + constructor; [done|].
      rewrite insert_perm. constructor; [|done].
      apply cmp_flip_pos in Hxy. lia.
    + constructor; [by constructor|].
      constructor; [done|].
      eapply Forall_impl; [exact Hy|]. intros z Hz. by eapply cmp_trans.
Qed.

Lemma sort_sorted l : StronglySorted (λ a b, cmp a b <= 0) (JsArray.sort cmp l).
Proof.
  induction l as [|x l IH]; simpl; [constructor|]. by apply insert_sorted.
Qed.

(** Elements the comparator does not tell apart keep their order. *)
Lemma insert_stable z x l :
  List.filter (λ y, cmp z y =? 0) (JsArray.insert cmp x l)
  = List.filter (λ y, cmp z y =? 0) (x :: l).
Proof.
  induction l as [|y l IH]; [done|].
  cbn [JsArray.insert].
  destruct (Z.ltb_spec 0 (cmp x y)) as [Hxy|Hxy]; [|done].
  cbn [List.filter] in *. rewrite IH.
  destruct (Z.eqb_spec (cmp z x) 0) as [Hzx|Hzx]; [|done].
  destruct (Z.eqb_spec (cmp z y) 0) as [Hzy|Hzy]; [|done].
  exfalso. apply cmp_flip_zero in Hzx.
  assert (cmp x y <= 0) by (eapply cmp_trans; [|]; [|apply Z.eq_le_incl; eassumption]; lia).
  lia.
Qed.

Lemma sort_stable z l :
  List.filter (λ y, cmp z y =? 0) (JsArray.sort cmp l)
  = List.filter (λ y, cmp z y =? 0) l.
Proof.
  induction l as [|x l IH]; [done|].
  cbn [JsArray.sort]. rewrite insert_stable. cbn [List.filter]. by rewrite IH.
Qed.

(** Two sorted arrangements that keep the same order among tied elements
    are the same list. *)
Lemma sorted_stable_unique l1 l2 :
  StronglySorted (λ a b, cmp a b <= 0) l1 →
  StronglySorted (λ a b, cmp a b <= 0) l2 →
  (∀ z, List.filter (λ y, cmp z y =? 0) l1 = List.filter (λ y, cmp z y =? 0) l2) →
  l1 = l2.
Proof.
  intros H1. revert l2.
  induction H1 as [|x l1 Hl1 IH Hx]; intros l2 H2 Hf.
  - destruct l2 as [|y l2]; [done|].
    specialize (Hf y). cbn [List.filter] in Hf.
    rewrite cmp_refl in Hf. discriminate.
  - destruct H2 as [|y l2 Hl2 Hy].
    { specialize (Hf x). cbn [List.filter] in Hf.
      rewrite cmp_refl in Hf. discriminate. }
    assert (Hxy : cmp x y = 0).
    { assert (Hle1 : cmp x y <= 0).
      { pose proof (Hf y) as Hfy. cbn [List.filter] in Hfy.
        rewrite (cmp_refl y) in Hfy. cbn [Z.eqb] in Hfy.
        destruct (Z.eqb_spec (cmp y x) 0) as [E|E].
        - apply cmp_flip_zero in E. lia.
        - assert (Hin : In y (List.filter (λ y0, cmp y y0 =? 0) l1))
            by (rewrite Hfy; left; done).
          apply filter_In in Hin as [Hin _].
          rewrite Forall_forall in Hx. apply Hx. by apply list_elem_of_In. }
      assert (Hle2 : cmp y x <= 0).
      { pose proof (Hf x) as Hfx. cbn [List.filter] in Hfx.
        rewrite (cmp_refl x) in Hfx. cbn [Z.eqb] in Hfx.
        destruct (Z.eqb_spec (cmp x y) 0) as [E|E].
        - apply cmp_flip_zero in E. lia.
        - assert (Hin : In x (List.filter (λ y0, cmp x y0 =? 0) l2))
            by (rewrite <- Hfx; left; done).
          apply filter_In in Hin as [Hin _].
          rewrite Forall_forall in Hy. apply Hy. by apply list_elem_of_In. }
      pose proof (cmp_antisym x y). lia. }
    assert (x = y) as <-.
    { specialize (Hf x). cbn [List.filter] in Hf.
      rewrite cmp_refl, Hxy in Hf. cbn [Z.eqb] in Hf. congruence. }
    f_equal. apply IH; [done|].
    intros z. specialize (Hf z). cbn [List.filter] in Hf.
    destruct (cmp z x =? 0); congruence.
Qed.

End StableSort.

Lemma consistent_flip {A} (cmp : A → A → Z) :
  consistent cmp → consistent (λ a b, cmp b a).
Proof.
  intros [Ha Ht]. split.
  - intros a b. apply Ha.
  - intros a b c Hab Hbc. by apply (Ht c b a).
Qed.

(** Sorting one way, the other way and the first way again gives what the
    first sort gave. *)
Lemma sort_flip_sort {A} (cmp : A → A → Z) (l : list A) :
  consistent cmp →
  JsArray.sort cmp (JsArray.sort (λ a b, cmp b a) (JsArray.sort cmp l))
  = JsArray.sort cmp l.
Proof.
  intros Hc. pose proof (consistent_flip cmp Hc) as Hc'.
  apply (sorted_stable_unique cmp Hc); try by apply sort_sorted.
  intros z. rewrite (sort_stable cmp Hc).
  assert (Hflip : ∀ l', List.filter (λ y, cmp z y =? 0) l'
                        = List.filter (λ y, cmp y z =? 0) l').
  { intros l'. apply filter_ext. intros y.
    pose proof (cmp_flip_zero cmp Hc z y).
    destruct (Z.eqb_spec (cmp z y) 0), (Z.eqb_spec (cmp y z) 0); tauto. }
  rewrite !Hflip.
  apply (sort_stable (λ a b, cmp b a) Hc' z).
Qed.

(** ** The comparator of the script *)

Section Comparator.
Variable localeCompare : string → string → Z.

Lemma compareProducts_desc col a b :
  compareProducts localeCompare {| column := col; direction := desc |} a b
  = compareProducts localeCompare {| column := col; direction := asc |} b a.
Proof.
  unfold compareProducts, columnIs; simpl.
  by destruct col as [c|]; [destruct (String.eqb c "title"), (String.eqb c "price")|].
Qed.

Lemma compareProducts_price d a b :
  compareProducts localeCompare {| column := Some "price"; direction := d |} a b
  = match d with asc => price a - price b | desc => price b - price a end.
Proof. reflexivity. Qed.

Lemma compareProducts_consistent c :
  consistent localeCompare → consistent (compareProducts localeCompare c).
Proof.
  intros [Ha Ht]. unfold compareProducts.
  destruct (columnIs c "title"); [|destruct (columnIs c "price")].
  - destruct (direction c); split; intros; eauto.
  - destruct (direction c); split; intros; lia.
  - split; intros; lia.
Qed.

End Comparator.

Lemma codeUnitCompare_consistent : consistent codeUnitCompare.
Proof.
  assert (Hlt : ∀ a b c, String.compare a b = Lt → String.compare b c = Lt →
                         String.compare a c = Lt).
  { induction a as [|x a IH]; intros [|y b] [|z c]; simpl; try done.
    destruct (Ascii.compare x y) eqn:Exy; try done;
      destruct (Ascii.compare y z) eqn:Eyz; try done; intros H1 H2.
    - assert (x = y) as -> by (by apply Ascii.compare_eq_iff).
      assert (y = z) as -> by (by apply Ascii.compare_eq_iff).
      rewrite Exy. eauto.
    - assert (x = y) as -> by (by apply Ascii.compare_eq_iff).
      by rewrite Eyz.
    - assert (y = z) as -> by (by apply Ascii.compare_eq_iff).
      by rewrite Exy.
    - unfold Ascii.compare in *.
      rewrite N.compare_lt_iff in *.
      assert (N_of_ascii x < N_of_ascii z)%N as Hxz by lia.
      apply N.compare_lt_iff in Hxz. by rewrite Hxz. }
  unfold codeUnitCompare. split.
  - intros a b. rewrite (String.compare_antisym b a).
    by destruct (String.compare a b).
  - intros a b c.
    destruct (String.compare a b) eqn:Eab; [| |lia];
      destruct (String.compare b c) eqn:Ebc; try lia; intros _ _.
    + assert (a = b) as -> by (by apply String.compare_eq_iff).
      assert (b = c) as -> by (by apply String.compare_eq_iff).
      by rewrite Eab.
    + assert (a = b) as -> by (by apply String.compare_eq_iff).
      by rewrite Ebc.
    + assert (b = c) as -> by (by apply String.compare_eq_iff).
      by rewrite Eab.
    + by rewrite (Hlt a b c).
Qed.

(** ** Sorting by price *)

Section PriceSort.
Variable localeCompare : string → string → Z.

Lemma compareProducts_price_consistent d :
  consistent (compareProducts localeCompare (byPrice d)).
Proof.
  split; intros; unfold byPrice in *;
    rewrite !compareProducts_price in *; destruct d; lia.
Qed.

Lemma sortProducts_filteredList s :
  filteredList (sortProducts localeCompare s)
  = JsArray.sort (compareProducts localeCompare (sortConfig s)) (filteredList s).
Proof.
  unfold sortProducts, filteredList at 1, contents; simpl.
  by rewrite lookup_insert_eq.
Qed.

Lemma prices_ascending l :
  Sorted Z.le
    (price <$> JsArray.sort (compareProducts localeCompare (byPrice asc)) l).
Proof.
  apply StronglySorted_Sorted.
  eapply StronglySorted_fmap;
    [|apply sort_sorted, compareProducts_price_consistent].
  intros a b. unfold byPrice. rewrite compareProducts_price. lia.
Qed.

Lemma prices_descending l :
  Sorted (flip Z.le)
    (price <$> JsArray.sort (compareProducts localeCompare (byPrice desc)) l).
Proof.
  apply StronglySorted_Sorted.
  eapply StronglySorted_fmap;
    [|apply sort_sorted, compareProducts_price_consistent].
  intros a b. unfold byPrice, flip. rewrite compareProducts_price. lia.
Qed.

Lemma price_sorts_reverse l l' :
  l ≡ₚ l' →
  price <$> JsArray.sort (compareProducts localeCompare (byPrice asc)) l
  = reverse
      (price <$> JsArray.sort (compareProducts localeCompare (byPrice desc)) l').
Proof.
  intros Hp. apply (Sorted_unique Z.le).
  - apply prices_ascending.
  - apply (Sorted_reverse (flip Z.le)), prices_descending.
  - rewrite reverse_Permutation, !sort_perm. by rewrite Hp.
Qed.

(** C6.  Sorting the shown products by price ascending and by price
    descending gives price sequences that are reverses of each other, whether
    both sorts start from the same list or the descending sort is applied to
    the result of the ascending one. *)
Theorem price_ascending_is_reverse_of_descending (s : state) :
  let up := sortProducts localeCompare (set_sortConfig (byPrice asc) s) in
  let down := sortProducts localeCompare (set_sortConfig (byPrice desc) s) in
  let up_down := sortProducts localeCompare (set_sortConfig (byPrice desc) up) in
  price <$> filteredList up = reverse (price <$> filteredList down)
  ∧ price <$> filteredList up = reverse (price <$> filteredList up_down)
  ∧ filteredList up ≡ₚ filteredList s
  ∧ filteredList down ≡ₚ filteredList s.
Proof.
  cbv zeta. rewrite !sortProducts_filteredList.
  change (sortConfig (set_sortConfig ?c _)) with c.
  change (filteredList (set_sortConfig ?c ?s)) with (filteredList s).
  rewrite !sortProducts_filteredList.
  change (sortConfig (set_sortConfig ?c _)) with c.
  change (filteredList (set_sortConfig ?c ?s)) with (filteredList s).
  split; [by apply price_sorts_reverse|].
  split; [apply price_sorts_reverse; by rewrite sort_perm|].
  split; apply sort_perm.
Qed.

End PriceSort.

(** ** The pager *)

(** [Math_ceil_div] is the ceiling of the quotient for a positive divisor. *)
Lemma Math_ceil_div_spec x y :
  0 < y → (Math_ceil_div x y - 1) * y < x <= Math_ceil_div x y * y.
Proof.
  intros Hy. unfold Math_ceil_div.
  pose proof (Z.div_mod (- x) y) as Hd.
  pose proof (Z.mod_pos_bound (- x) y Hy). nia.
Qed.

Lemma Math_ceil_div_pos x y : 0 < y → 0 < x → 1 <= Math_ceil_div x y.
Proof. intros Hy Hx. pose proof (Math_ceil_div_spec x y Hy). nia. Qed.

Lemma Math_ceil_div_zero y : Math_ceil_div 0 y = 0.
Proof. unfold Math_ceil_div. simpl. by rewrite Zdiv_0_l. Qed.

Lemma relativeIndex_range len i :
  0 <= len → 0 <= JsArray.relativeIndex len i <= len.
Proof. unfold JsArray.relativeIndex. destruct (Z.ltb_spec i 0); lia. Qed.

Lemma relativeIndex_step len i d :
  0 <= len → 0 <= d →
  JsArray.relativeIndex len (i + d) - JsArray.relativeIndex len i <= d.
Proof.
  unfold JsArray.relativeIndex.
  destruct (Z.ltb_spec i 0), (Z.ltb_spec (i + d) 0); lia.
Qed.

Lemma slice_lookup {A} (a : list A) start end_ i x :
  JsArray.slice a start end_ !! i = Some x →
  a !! (Z.to_nat (JsArray.relativeIndex (Z.of_nat (length a)) start) + i)%nat
  = Some x.
Proof.
  unfold JsArray.slice. intros H.
  apply lookup_take_Some in H as [H _]. by rewrite lookup_drop in H.
Qed.

Lemma slice_length {A} (a : list A) start d :
  0 <= d → Z.of_nat (length (JsArray.slice a start (start + d))) <= d.
Proof.
  intros Hd. unfold JsArray.slice. rewrite length_take.
  pose proof (relativeIndex_step (Z.of_nat (length a)) start d). lia.
Qed.

(** C2.  With a positive page size, whatever the current page: the slice
    shown is a run of consecutive elements of the filtered list, each at an
    index below its length; it has at most [itemsPerPage] elements; and
    [totalPages] is at least 1 when the filtered list is not empty. *)
Theorem pager_slice_within_bounds (s : state) :
  0 < itemsPerPage s →
  (∃ k : nat, ∀ (i : nat) (p : product),
      pageData s !! i = Some p →
      (k + i < length (filteredList s))%nat ∧ filteredList s !! (k + i)%nat = Some p)
  ∧ Z.of_nat (length (pageData s)) <= itemsPerPage s
  ∧ (filteredList s ≠ [] → 1 <= totalPages s).
Proof.
  intros Hpos. split; [|split].
  - eexists. intros i p H. apply slice_lookup in H.
    split; [|exact H]. by apply lookup_lt_Some in H.
  - unfold pageData, endIndex. apply slice_length. lia.
  - intros Hne. apply Math_ceil_div_pos; [done|].
    unfold filteredCount. destruct (filteredList s); [done|]. simpl. lia.
Qed.

Lemma pager_slice_within_bounds_witness :
  0 < itemsPerPage shop
  ∧ Z.of_nat (length (pageData shop)) <= itemsPerPage shop.
Proof.
  assert (H : 0 < itemsPerPage shop) by (vm_compute; reflexivity).
  destruct (pager_slice_within_bounds shop H) as (_ & Hlen & _).
  exact (conj H Hlen).
Defined.

Lemma renderTable_tableBody s :
  tableBody (page (renderTable s))
  = if Z.of_nat (length (pageData s)) =? 0 then NoDataRow
    else Rows (imap (λ index p,
                       createTableRow p (startIndex s + Z.of_nat index + 1))
                    (pageData s)).
Proof.
  unfold renderTable.
  by destruct (Z.of_nat (length (pageData s)) =? 0).
Qed.

Lemma renderTable_controls s :
  pageInfo (page (renderTable s))
  = (if filteredCount s =? 0 then NoDataInfo
     else PageOf (currentPage s) (totalPages s))
  ∧ prevBtn_disabled (page (renderTable s)) = (currentPage s =? 1)
  ∧ nextBtn_disabled (page (renderTable s))
    = (currentPage s >=? totalPages s) || (filteredCount s =? 0).
Proof.
  unfold renderTable.
  by destruct (Z.of_nat (length (pageData s)) =? 0).
Qed.

Lemma renderTable_untouched s :
  loading_active (page (renderTable s)) = loading_active (page s)
  ∧ scroll (page (renderTable s)) = scroll (page s).
Proof.
  unfold renderTable.
  by destruct (Z.of_nat (length (pageData s)) =? 0).
Qed.

Lemma renderTable_pageData s : pageData (renderTable s) = pageData s.
Proof. by render_fields. Qed.

Lemma slice_nil {A} start end_ : JsArray.slice (@nil A) start end_ = [].
Proof. unfold JsArray.slice. by rewrite drop_nil, take_nil. Qed.

(** Twenty-five products, ten per page: page 1 shows the products 1 to 10 of
    three pages, with the previous button disabled and the next one
    enabled; the next click shows 11 to 20. *)
Example first_page_of_three :
  id <$> pageData warehouse = seqZ 1 10
  ∧ pageInfo (page warehouse) = PageOf 1 3
  ∧ prevBtn_disabled (page warehouse) = true
  ∧ nextBtn_disabled (page warehouse) = false
  ∧ id <$> pageData (nextPage warehouse) = seqZ 11 10
  ∧ pageInfo (page (nextPage warehouse)) = PageOf 2 3.
Proof. repeat split; vm_compute; reflexivity. Qed.

(** ** Navigation *)

(** C5.  With a positive page size, [previousPage] changes nothing on page 1
    and [nextPage] changes nothing on or after the last page; both are
    total, and each either leaves the state as it is or moves the current
    page by exactly one. *)
Theorem navigation_clamps (s : state) :
  0 < itemsPerPage s →
  (currentPage s = 1 → previousPage s = s)
  ∧ (currentPage s >= totalPages s → nextPage s = s)
  ∧ (previousPage s = s ∨ currentPage (previousPage s) = currentPage s - 1)
  ∧ (nextPage s = s ∨ currentPage (nextPage s) = currentPage s + 1).
Proof.
  intros _. unfold previousPage, nextPage. rewrite Z.gtb_ltb.
  repeat split.
  - intros ->. reflexivity.
  - intros H. destruct (Z.ltb_spec (currentPage s) (totalPages s)); [lia|done].
  - destruct (1 <? currentPage s); [right|by left].
    cbn [currentPage set_page]. by rewrite renderTable_currentPage.
  - destruct (currentPage s <? totalPages s); [right|by left].
    cbn [currentPage set_page]. by rewrite renderTable_currentPage.
Qed.

Lemma navigation_clamps_witness :
  (currentPage shop = 1 ∧ previousPage shop = shop)
  ∧ (currentPage shop >= totalPages shop ∧ nextPage shop = shop).
Proof.
  assert (Hpos : 0 < itemsPerPage shop) by (vm_compute; reflexivity).
  destruct (navigation_clamps shop Hpos) as (Hprev & Hnext & _).
  split; split.
  - vm_compute. reflexivity.
  - apply Hprev. vm_compute. reflexivity.
  - vm_compute. discriminate.
  - apply Hnext. vm_compute. discriminate.
Defined.

(** ** An empty result *)

(** C4, as the script has it.  When [renderTable] runs on an empty filtered
    list with a positive page size, the page count computed is 0 and is not
    shown (the page text is the no-data text), the slice is empty, the body
    is the no-data row, the next button is disabled, and the previous button
    is disabled on page 1; a search that matches nothing ends on page 1 with
    both buttons disabled. *)
Theorem empty_result_view (s : state) :
  filteredList s = [] →
  0 < itemsPerPage s →
  (let s' := renderTable s in
   totalPages s' = 0
   ∧ pageData s' = []
   ∧ tableBody (page s') = NoDataRow
   ∧ pageInfo (page s') = NoDataInfo
   ∧ nextBtn_disabled (page s') = true
   ∧ prevBtn_disabled (page s') = (currentPage s =? 1))
  ∧ (∀ value,
       let s' := onSearchInput value s in
       filteredList s' = [] →
       totalPages s' = 0
       ∧ pageData s' = []
       ∧ tableBody (page s') = NoDataRow
       ∧ pageInfo (page s') = NoDataInfo
       ∧ prevBtn_disabled (page s') = true
       ∧ nextBtn_disabled (page s') = true).
Proof.
  assert (Hgen : ∀ x, filteredList x = [] →
    totalPages (renderTable x) = 0
    ∧ pageData (renderTable x) = []
    ∧ tableBody (page (renderTable x)) = NoDataRow
    ∧ pageInfo (page (renderTable x)) = NoDataInfo
    ∧ nextBtn_disabled (page (renderTable x)) = true
    ∧ prevBtn_disabled (page (renderTable x)) = (currentPage x =? 1)).
  { intros x Hx.
    assert (Hc : filteredCount x = 0) by (unfold filteredCount; by rewrite Hx).
    assert (Hd : pageData x = []) by (unfold pageData; rewrite Hx; apply slice_nil).
    destruct (renderTable_controls x) as (Hi & Hp & Hn).
    rewrite renderTable_totalPages, renderTable_pageData, renderTable_tableBody.
    rewrite Hi, Hp, Hn, Hd, Hc. unfold totalPages. rewrite Hc, Math_ceil_div_zero.
    rewrite orb_true_r. done. }
  intros Hs _. split; [by apply Hgen|].
  intros value s' Hs'. subst s'.
  unfold onSearchInput, filterProducts in *.
  destruct (alloc _ _) as [l h].
  rewrite renderTable_filteredList in Hs'.
  destruct (Hgen _ Hs') as (H1 & H2 & H3 & H4 & H5 & H6).
  by repeat split.
Qed.

Lemma empty_result_view_witness :
  filteredList (onSearchInput "zzz" shop) = []
  ∧ 0 < itemsPerPage (onSearchInput "zzz" shop)
  ∧ pageInfo (page (renderTable (onSearchInput "zzz" shop))) = NoDataInfo.
Proof.
  assert (H1 : filteredList (onSearchInput "zzz" shop) = [])
    by (vm_compute; reflexivity).
  assert (H2 : 0 < itemsPerPage (onSearchInput "zzz" shop))
    by (vm_compute; reflexivity).
  pose proof (empty_result_view (onSearchInput "zzz" shop) H1 H2) as [H _].
  cbv zeta in H. destruct H as (_ & _ & _ & H & _).
  exact (conj H1 (conj H2 H)).
Defined.

(** C4 as stated fails: after a search that matches nothing the page count
    the pager computes is 0, not 1, and the page text shows no count. *)
Lemma empty_result_total_pages_is_not_one :
  filteredList (onSearchInput "zzz" shop) = []
  ∧ totalPages (onSearchInput "zzz" shop) = 0
  ∧ totalPages (onSearchInput "zzz" shop) ≠ 1
  ∧ pageInfo (page (onSearchInput "zzz" shop)) = NoDataInfo.
Proof. repeat split; vm_compute; discriminate. Qed.

(** ** What holds in every state the page can reach *)

Lemma alloc_fresh a h : (alloc a h).1 ∉ dom h.
Proof. apply is_fresh. Qed.

Lemma alloc_dom a h : dom (alloc a h).2 = {[ (alloc a h).1 ]} ∪ dom h.
Proof. unfold alloc; simpl. by rewrite dom_insert_L. Qed.

Lemma alloc_lookup_old a h l :
  l ∈ dom h → (alloc a h).2 !! l = h !! l.
Proof.
  intros Hl. unfold alloc; simpl. apply lookup_insert_ne.
  intros <-. by apply (is_fresh (dom h)).
Qed.

(** Name the reference and the store of the next [alloc] in the goal, with
    what is known about them. *)
Ltac new_array l h :=
  match goal with
  | |- context [alloc ?a ?h0] =>
      let F := fresh "Hfresh" in
      let D := fresh "Hdom" in
      let L := fresh "Hold" in
      pose proof (alloc_fresh a h0) as F;
      pose proof (alloc_dom a h0) as D;
      pose proof (alloc_lookup_old a h0) as L;
      destruct (alloc a h0) as [l h]; cbn [fst snd] in F, D, L
  end.

Section Reachable.
Variable localeCompare : string → string → Z.

Lemma init_separate v0 : separate (init v0).
Proof. vm_compute. repeat split; try done; by apply elem_of_dom. Qed.

Lemma filterProducts_separate t s : separate s → separate (filterProducts t s).
Proof.
  intros (Ha & Hf & Hne). unfold filterProducts. new_array l h.
  unfold separate.
  rewrite renderTable_store, renderTable_allProducts, renderTable_filteredProducts.
  cbn [store allProducts filteredProducts set_currentPage set_filteredProducts
       set_store].
  rewrite Hdom. repeat split.
  - apply elem_of_union_r, Ha.
  - apply elem_of_union_l, elem_of_singleton. reflexivity.
  - intros E. apply Hfresh. by rewrite <- E.
Qed.

Lemma sortProducts_separate s : separate s → separate (sortProducts localeCompare s).
Proof.
  intros (Ha & Hf & Hne). unfold separate, sortProducts; simpl.
  rewrite dom_insert_L. set_solver.
Qed.

Lemma handleSort_separate col s : separate s → separate (handleSort localeCompare col s).
Proof.
  intros H. unfold handleSort, separate.
  rewrite renderTable_store, renderTable_allProducts, renderTable_filteredProducts.
  apply (sortProducts_separate (set_sortConfig _ s)), H.
Qed.

Lemma navigation_separate s :
  separate s → separate (previousPage s) ∧ separate (nextPage s).
Proof.
  intros H. unfold previousPage, nextPage, separate.
  destruct (currentPage s >? 1), (currentPage s <? totalPages s); simpl;
    rewrite ?renderTable_store, ?renderTable_allProducts,
      ?renderTable_filteredProducts; done.
Qed.

Lemma getAll_settle_separate r s : separate s → separate (getAll_settle r s).
Proof.
  intros H. unfold getAll_settle.
  destruct (fetched r) as [ps|]; [|exact H].
  new_array la h1. new_array lf h2.
  unfold separate, showLoading. cbn [store allProducts filteredProducts set_page].
  rewrite renderTable_store, renderTable_allProducts, renderTable_filteredProducts.
  cbn [store allProducts filteredProducts set_currentPage set_filteredProducts
       set_allProducts set_store].
  rewrite Hdom0, Hdom. repeat split.
  - apply elem_of_union_r, elem_of_union_l, elem_of_singleton. reflexivity.
  - apply elem_of_union_l, elem_of_singleton. reflexivity.
  - intros E. apply Hfresh0. rewrite Hdom, <- E.
    apply elem_of_union_l, elem_of_singleton. reflexivity.
Qed.

Lemma user_step_separate u s : separate s → separate (user_step localeCompare u s).
Proof.
  intros H. destruct u; simpl.
  - by apply filterProducts_separate.
  - unfold onItemsPerPageChange, separate.
    by rewrite renderTable_store, renderTable_allProducts,
      renderTable_filteredProducts.
  - by apply handleSort_separate.
  - by apply navigation_separate.
  - by apply navigation_separate.
Qed.

Lemma step_separate e s : separate s → separate (step localeCompare e s).
Proof.
  destruct e; simpl; [apply user_step_separate | apply getAll_settle_separate].
Qed.

Lemma run_separate es s : separate s → separate (run localeCompare es s).
Proof.
  revert s. induction es as [|e es IH]; intros s H; simpl; [done|].
  by apply IH, step_separate.
Qed.

Lemma reachable_separate v0 es : separate (run localeCompare es (loaded v0)).
Proof. apply run_separate, init_separate. Qed.

End Reachable.

(** ** The current page *)

Section CurrentPage.
Variable localeCompare : string → string → Z.

Lemma page_one_in_range s : currentPage s = 1 → page_in_range s.
Proof. unfold page_in_range. lia. Qed.

Lemma onSearchInput_currentPage value s : currentPage (onSearchInput value s) = 1.
Proof.
  unfold onSearchInput, filterProducts. destruct (alloc _ _).
  by rewrite renderTable_currentPage.
Qed.

Lemma handleSort_currentPage col s : currentPage (handleSort localeCompare col s) = 1.
Proof. unfold handleSort. by rewrite renderTable_currentPage. Qed.

Lemma onItemsPerPageChange_currentPage n s :
  currentPage (onItemsPerPageChange n s) = 1.
Proof. unfold onItemsPerPageChange. by rewrite renderTable_currentPage. Qed.

Lemma getAll_settle_currentPage r s ps :
  fetched r = Some ps → currentPage (getAll_settle r s) = 1.
Proof.
  intros E. unfold getAll_settle. rewrite E.
  destruct (alloc _ _), (alloc _ _). unfold showLoading. simpl.
  by rewrite renderTable_currentPage.
Qed.

Lemma getAll_settle_failure r s :
  fetched r = None →
  getAll_settle r s
  = set_page (set_tableBody ErrorRow (set_loading false (page s))) s.
Proof. intros E. unfold getAll_settle. by rewrite E. Qed.

Lemma previousPage_in_range s : page_in_range s → page_in_range (previousPage s).
Proof.
  unfold previousPage, page_in_range. rewrite Z.gtb_ltb.
  destruct (Z.ltb_spec 1 (currentPage s)); [|done].
  change (totalPages (set_page ?v ?x)) with (totalPages x).
  rewrite renderTable_totalPages. cbn [currentPage set_page].
  rewrite renderTable_currentPage.
  change (totalPages (set_currentPage ?n s)) with (totalPages s).
  cbn [currentPage set_currentPage]. lia.
Qed.

Lemma nextPage_in_range s : page_in_range s → page_in_range (nextPage s).
Proof.
  unfold nextPage, page_in_range.
  destruct (Z.ltb_spec (currentPage s) (totalPages s)); [|done].
  change (totalPages (set_page ?v ?x)) with (totalPages x).
  rewrite renderTable_totalPages. cbn [currentPage set_page].
  rewrite renderTable_currentPage.
  change (totalPages (set_currentPage ?n s)) with (totalPages s).
  cbn [currentPage set_currentPage]. lia.
Qed.

Lemma step_in_range e s : page_in_range s → page_in_range (step localeCompare e s).
Proof.
  intros H. destruct e as [[value|n|col| |]|r]; simpl.
  - apply page_one_in_range, onSearchInput_currentPage.
  - apply page_one_in_range, onItemsPerPageChange_currentPage.
  - apply page_one_in_range, handleSort_currentPage.
  - by apply previousPage_in_range.
  - by apply nextPage_in_range.
  - destruct (fetched r) as [ps|] eqn:E.
    + eapply page_one_in_range, getAll_settle_currentPage, E.
    + by rewrite getAll_settle_failure.
Qed.

Lemma step_itemsPerPage e s :
  valid_event e → 0 < itemsPerPage s → 0 < itemsPerPage (step localeCompare e s).
Proof.
  intros He H. destruct e as [[value|n|col| |]|r]; simpl in *.
  - unfold onSearchInput, filterProducts. destruct (alloc _ _).
    by rewrite renderTable_itemsPerPage.
  - unfold onItemsPerPageChange. by rewrite renderTable_itemsPerPage.
  - unfold handleSort. by rewrite renderTable_itemsPerPage.
  - unfold previousPage. destruct (currentPage s >? 1); [|done].
    cbn [itemsPerPage set_page]. by rewrite renderTable_itemsPerPage.
  - unfold nextPage. destruct (currentPage s <? totalPages s); [|done].
    cbn [itemsPerPage set_page]. by rewrite renderTable_itemsPerPage.
  - unfold getAll_settle. destruct (fetched r); [|done].
    destruct (alloc _ _), (alloc _ _). unfold showLoading.
    cbn [itemsPerPage set_page]. by rewrite renderTable_itemsPerPage.
Qed.

Lemma run_in_range es s :
  Forall valid_event es →
  page_in_range s ∧ 0 < itemsPerPage s →
  page_in_range (run localeCompare es s)
  ∧ 0 < itemsPerPage (run localeCompare es s).
Proof.
  intros Hes. revert s. induction Hes as [|e es He Hes IH]; intros s [H1 H2]; [done|].
  simpl. apply IH. split; [by apply step_in_range | by apply step_itemsPerPage].
Qed.

(** C3.  In every state the page reaches by user events with positive page
    sizes and settled fetches, the current page lies between 1 and
    [max 1 totalPages], and the page size is positive; and a search, a sort,
    a change of page size and a successful fetch all end on page 1. *)
Theorem current_page_stays_in_range (v0 : view) (es : list event) :
  Forall valid_event es →
  let s := run localeCompare es (loaded v0) in
  page_in_range s
  ∧ 0 < itemsPerPage s
  ∧ (∀ value, currentPage (onSearchInput value s) = 1)
  ∧ (∀ col, currentPage (handleSort localeCompare col s) = 1)
  ∧ (∀ n, currentPage (onItemsPerPageChange n s) = 1)
  ∧ (∀ r ps, fetched r = Some ps → currentPage (getAll_settle r s) = 1).
Proof.
  intros Hes s.
  destruct (run_in_range es (loaded v0) Hes) as [H1 H2].
  { split; [apply page_one_in_range|]; vm_compute; reflexivity. }
  split; [exact H1|]. split; [exact H2|].
  split; [intros; apply onSearchInput_currentPage|].
  split; [intros; apply handleSort_currentPage|].
  split; [intros; apply onItemsPerPageChange_currentPage|].
  intros r ps. apply getAll_settle_currentPage.
Qed.

End CurrentPage.

(** ** The full list is left alone *)

Section Frame.
Variable localeCompare : string → string → Z.

Lemma user_step_allProducts u s :
  allProducts (user_step localeCompare u s) = allProducts s.
Proof.
  destruct u; simpl.
  - unfold onSearchInput, filterProducts. destruct (alloc _ _).
    by rewrite renderTable_allProducts.
  - unfold onItemsPerPageChange. by rewrite renderTable_allProducts.
  - unfold handleSort. by rewrite renderTable_allProducts.
  - unfold previousPage. destruct (currentPage s >? 1); [|done].
    cbn [allProducts set_page]. by rewrite renderTable_allProducts.
  - unfold nextPage. destruct (currentPage s <? totalPages s); [|done].
    cbn [allProducts set_page]. by rewrite renderTable_allProducts.
Qed.

Lemma user_step_store_allProducts u s :
  separate s →
  store (user_step localeCompare u s) !! allProducts s = store s !! allProducts s.
Proof.
  intros (Ha & Hf & Hne). destruct u; simpl.
  - unfold onSearchInput, filterProducts. new_array l h.
    rewrite renderTable_store. by apply Hold.
  - unfold onItemsPerPageChange. by rewrite renderTable_store.
  - unfold handleSort, sortProducts. rewrite renderTable_store. simpl.
    by rewrite lookup_insert_ne.
  - unfold previousPage. destruct (currentPage s >? 1); [|done].
    cbn [store set_page]. by rewrite renderTable_store.
  - unfold nextPage. destruct (currentPage s <? totalPages s); [|done].
    cbn [store set_page]. by rewrite renderTable_store.
Qed.

Lemma user_step_allList u s :
  separate s → allList (user_step localeCompare u s) = allList s.
Proof.
  intros H. unfold allList, contents.
  by rewrite user_step_allProducts, user_step_store_allProducts.
Qed.

Lemma filterProducts_fresh t s : filteredProducts (filterProducts t s) ∉ dom (store s).
Proof.
  unfold filterProducts. new_array l h.
  by rewrite renderTable_filteredProducts.
Qed.

(** C10.  In every state the page reaches, [allProducts] and
    [filteredProducts] are two different arrays; no user event (search,
    page size, sort, previous, next) changes which array [allProducts] is or
    what it holds; [filterProducts] points [filteredProducts] to an array
    that did not exist before; and [sortProducts] changes the store at
    [filteredProducts] only. *)
Theorem allProducts_is_never_modified (v0 : view) (es : list event) (u : user_event) :
  let s := run localeCompare es (loaded v0) in
  separate s
  ∧ allProducts (user_step localeCompare u s) = allProducts s
  ∧ allList (user_step localeCompare u s) = allList s
  ∧ (∀ t, filteredProducts (filterProducts t s) ∉ dom (store s))
  ∧ delete (filteredProducts s) (store (sortProducts localeCompare s))
    = delete (filteredProducts s) (store s).
Proof.
  intros s. pose proof (reachable_separate localeCompare v0 es) as Hs.
  fold s in Hs.
  split; [exact Hs|].
  split; [apply user_step_allProducts|].
  split; [by apply user_step_allList|].
  split; [intros t; apply filterProducts_fresh|].
  unfold sortProducts. cbn [store set_store]. apply delete_insert_eq.
Qed.

(** ** Fetching *)

Lemma run_users_allList us s :
  separate s →
  allList (run localeCompare (User <$> us) s) = allList s.
Proof.
  revert s. unfold run. induction us as [|u us IH]; intros s H; [done|].
  csimpl. rewrite IH; [by apply user_step_allList | by apply user_step_separate].
Qed.

Lemma getAll_settle_loading r s : loading_active (page (getAll_settle r s)) = false.
Proof.
  unfold getAll_settle. destruct (fetched r); [|done].
  by destruct (alloc _ _), (alloc _ _).
Qed.

(** C8.  When the request is rejected, or answered with a status outside
    200-299 (500 for one), or its body does not parse, [getAll] shows the
    error row in the table body, clears the loading indicator and leaves
    [allProducts] as it was: empty, whatever the user did while the request
    was pending.  The loading indicator is cleared when the request succeeds
    as well. *)
Theorem fetch_failure_shows_error (v0 : view) (us : list user_event) (r : fetch_outcome) :
  fetched r = None →
  let s := getAll_settle r (run localeCompare (User <$> us) (loaded v0)) in
  tableBody (page s) = ErrorRow
  ∧ loading_active (page s) = false
  ∧ allList s = []
  ∧ (∀ r' s', loading_active (page (getAll_settle r' s')) = false)
  ∧ fetched Rejected = None
  ∧ (∀ body, fetched (Response 500 body) = None)
  ∧ (∀ status body, ok status = false → fetched (Response status body) = None).
Proof.
  intros E s. subst s. rewrite (getAll_settle_failure r _ E).
  split; [done|]. split; [done|].
  split.
  { change (allList (set_page ?v ?x)) with (allList x).
    rewrite run_users_allList; [by vm_compute|apply init_separate]. }
  split; [intros; apply getAll_settle_loading|].
  split; [done|]. split; [done|].
  intros status body H. simpl. by rewrite H.
Qed.

End Frame.

(** ** Toggling the sort *)

Section Toggle.
Variable localeCompare : string → string → Z.

(** [renderTable] reads the script's variables and overwrites the table
    body, the page text and the two buttons: what these held before does
    not matter. *)
Lemma renderTable_set_page v s :
  loading_active v = loading_active (page s) →
  scroll v = scroll (page s) →
  renderTable (set_page v s) = renderTable s.
Proof.
  destruct s as [h la lf cp ipp cfg [b i p n ld sc]], v as [b' i' p' n' ld' sc'].
  simpl. intros -> ->. reflexivity.
Qed.

Lemma handleSort_set_page v col s :
  loading_active v = loading_active (page s) →
  scroll v = scroll (page s) →
  handleSort localeCompare col (set_page v s) = handleSort localeCompare col s.
Proof.
  intros H1 H2. unfold handleSort.
  change (sortConfig (set_page v s)) with (sortConfig s).
  set (c' := if decide (column (sortConfig s) = Some col) then _ else _).
  change (set_currentPage 1 (sortProducts localeCompare (set_sortConfig c' (set_page v s))))
    with (set_page v (set_currentPage 1 (sortProducts localeCompare (set_sortConfig c' s)))).
  by apply renderTable_set_page.
Qed.

Lemma handleSort_renderTable col s :
  handleSort localeCompare col (renderTable s) = handleSort localeCompare col s.
Proof.
  destruct (renderTable_untouched s) as [H1 H2].
  destruct (renderTable_page s) as [v E]. rewrite E in *.
  by apply handleSort_set_page.
Qed.

(** The script's variables after [handleSort], before it renders. *)
Lemma handleSort_sorted col s :
  ∃ c, handleSort localeCompare col s
       = renderTable (set_currentPage 1 (sortProducts localeCompare (set_sortConfig c s)))
     ∧ column c = Some col
     ∧ direction c
       = if decide (column (sortConfig s) = Some col)
         then match direction (sortConfig s) with asc => desc | desc => asc end
         else asc.
Proof.
  unfold handleSort. eexists. split; [reflexivity|].
  destruct (decide (column (sortConfig s) = Some col)); simpl; done.
Qed.

Lemma handleSort_sortConfig col s :
  column (sortConfig (handleSort localeCompare col s)) = Some col
  ∧ direction (sortConfig (handleSort localeCompare col s))
    = if decide (column (sortConfig s) = Some col)
      then match direction (sortConfig s) with asc => desc | desc => asc end
      else asc.
Proof.
  destruct (handleSort_sorted col s) as (c & -> & Hc & Hd).
  by rewrite renderTable_sortConfig.
Qed.

Lemma sorted_state c s :
  set_currentPage 1 (sortProducts localeCompare (set_sortConfig c s))
  = {| store := <[filteredProducts s :=
                    JsArray.sort (compareProducts localeCompare c) (filteredList s)]>
                  (store s);
       allProducts := allProducts s;
       filteredProducts := filteredProducts s;
       currentPage := 1;
       itemsPerPage := itemsPerPage s;
       sortConfig := c;
       page := page s |}.
Proof. reflexivity. Qed.

Lemma filteredList_written h la lf cp ipp c pg l :
  filteredList
    {| store := <[lf := l]> h; allProducts := la; filteredProducts := lf;
       currentPage := cp; itemsPerPage := ipp; sortConfig := c; page := pg |}
  = l.
Proof. unfold filteredList, contents. cbn [store filteredProducts]. by rewrite lookup_insert_eq. Qed.

Lemma sort_toggle_twice col s :
  consistent localeCompare →
  let x := set_currentPage 1
             (sortProducts localeCompare
                (set_sortConfig {| column := Some col; direction := asc |} s)) in
  handleSort localeCompare col (handleSort localeCompare col x) = renderTable x.
Proof.
  intros Hc x.
  assert (Hcol : column (sortConfig x) = Some col) by reflexivity.
  unfold handleSort at 2. rewrite handleSort_renderTable.
  rewrite (decide_True _ _ Hcol).
  unfold handleSort.
  rewrite (decide_True (P := column (sortConfig (set_currentPage 1 _)) = Some col))
    by exact Hcol.
  f_equal. unfold x. rewrite !sorted_state.
  cbn [store allProducts filteredProducts currentPage itemsPerPage sortConfig
       page column direction].
  rewrite !filteredList_written.
  rewrite !insert_insert_eq.
  pose proof (sort_flip_sort
    (compareProducts localeCompare {| column := Some col; direction := asc |})
    (filteredList s)
    (compareProducts_consistent localeCompare _ Hc)) as Hs.
  rewrite <- Hs at 2.
  reflexivity.
Qed.

(** The list [handleSort] leaves: the old one, sorted by the new
    configuration. *)
Lemma handleSort_filteredList col s :
  filteredList (handleSort localeCompare col s)
  = JsArray.sort
      (compareProducts localeCompare (sortConfig (handleSort localeCompare col s)))
      (filteredList s).
Proof.
  destruct (handleSort_sorted col s) as (c & E & _).
  rewrite E, renderTable_filteredList, renderTable_sortConfig, sorted_state.
  by rewrite filteredList_written.
Qed.

End Toggle.

Lemma StronglySorted_weaken {A} (R1 R2 : A → A → Prop) (l : list A) :
  (∀ x y, R1 x y → R2 x y) → StronglySorted R1 l → StronglySorted R2 l.
Proof.
  intros H. induction 1 as [|x l Hl IH Hx]; constructor; [done|].
  eapply Forall_impl; [exact Hx|]. intros y. apply H.
Qed.

(** C7.  [handleSort] on the active column flips the direction, on another
    column it makes that column active and the direction ascending.  When a
    click has sorted a column ascending, the list shown is the old one in
    ascending order by the comparator of that column (by price for [price],
    by [localeCompare] of the lower-cased titles for [title]); a second
    click leaves it in descending order; and a third gives back the very
    state the ascending sort had given: the same array contents, in that
    ascending order, the same sort configuration, page and table rows.  The
    comparator of the host is assumed consistent, as [Array.prototype.sort]
    needs it. *)
Theorem sort_toggle_flips_and_returns
    (localeCompare : string → string → Z) (col : string) (s : state) :
  consistent localeCompare →
  let s1 := handleSort localeCompare col s in
  let ascending :=
    compareProducts localeCompare {| column := Some col; direction := asc |} in
  column (sortConfig s1) = Some col
  ∧ (column (sortConfig s) = Some col →
     direction (sortConfig s1)
     = match direction (sortConfig s) with asc => desc | desc => asc end)
  ∧ (column (sortConfig s) ≠ Some col → direction (sortConfig s1) = asc)
  ∧ (direction (sortConfig s1) = asc →
     handleSort localeCompare col (handleSort localeCompare col s1) = s1)
  ∧ (direction (sortConfig s1) = asc →
     filteredList s1 ≡ₚ filteredList s
     ∧ StronglySorted (λ a b, ascending a b <= 0) (filteredList s1)
     ∧ StronglySorted (λ a b, ascending b a <= 0)
         (filteredList (handleSort localeCompare col s1))
     ∧ filteredList (handleSort localeCompare col (handleSort localeCompare col s1))
       = filteredList s1
     ∧ StronglySorted (λ a b, ascending a b <= 0)
         (filteredList (handleSort localeCompare col (handleSort localeCompare col s1)))
     ∧ (col = "price" → Sorted Z.le (price <$> filteredList s1))
     ∧ (col = "title" →
        StronglySorted
          (λ a b, localeCompare (JsString.toLowerCase (title a))
                                (JsString.toLowerCase (title b)) <= 0)
          (filteredList s1))).
Proof.
  intros Hc s1 ascending.
  destruct (handleSort_sortConfig localeCompare col s) as [Hcol Hdir].
  fold s1 in Hcol, Hdir.
  assert (Hback : direction (sortConfig s1) = asc →
                  handleSort localeCompare col (handleSort localeCompare col s1) = s1).
  { intros Hasc.
    destruct (handleSort_sorted localeCompare col s) as (c & E & Hc1 & _).
    fold s1 in E.
    assert (c = {| column := Some col; direction := asc |}) as ->.
    { rewrite E, renderTable_sortConfig in Hasc. cbn [sortConfig set_currentPage
        sortProducts set_store set_sortConfig] in Hasc.
      destruct c as [cc cd]. simpl in *. by subst. }
    rewrite E, handleSort_renderTable.
    by apply sort_toggle_twice. }
  split; [exact Hcol|].
  split; [intros E; by rewrite Hdir, decide_True|].
  split; [intros E; by rewrite Hdir, decide_False|].
  split; [exact Hback|].
  intros Hasc.
  assert (Hcfg : sortConfig s1 = {| column := Some col; direction := asc |}).
  { destruct (sortConfig s1) as [cc cd]. simpl in *. congruence. }
  assert (Hlist : filteredList s1 = JsArray.sort ascending (filteredList s)).
  { unfold s1 at 1. rewrite handleSort_filteredList. fold s1. by rewrite Hcfg. }
  assert (Hup : StronglySorted (λ a b, ascending a b <= 0) (filteredList s1)).
  { rewrite Hlist. apply sort_sorted. by apply compareProducts_consistent. }
  split; [rewrite Hlist; apply sort_perm|].
  split; [exact Hup|].
  split.
  { destruct (handleSort_sortConfig localeCompare col s1) as [Hcol2 Hdir2].
    rewrite decide_True in Hdir2 by exact Hcol. rewrite Hasc in Hdir2.
    rewrite handleSort_filteredList.
    destruct (sortConfig (handleSort localeCompare col s1)) as [cc cd].
    cbn [column direction] in Hcol2, Hdir2. subst cc cd.
    eapply StronglySorted_weaken;
      [|apply sort_sorted; by apply compareProducts_consistent].
    intros a b H. unfold ascending. by rewrite <- compareProducts_desc. }
  split; [by rewrite Hback|].
  split; [by rewrite Hback|].
  split.
  - intros ->. rewrite Hlist. apply prices_ascending.
  - intros ->. eapply StronglySorted_weaken; [|exact Hup].
    intros a b H. exact H.
Qed.

Lemma sort_toggle_flips_and_returns_witness :
  consistent codeUnitCompare
  ∧ direction (sortConfig (handleSort codeUnitCompare "title" shop)) = asc
  ∧ handleSort codeUnitCompare "title"
      (handleSort codeUnitCompare "title" (handleSort codeUnitCompare "title" shop))
    = handleSort codeUnitCompare "title" shop
  ∧ StronglySorted
      (λ a b, codeUnitCompare (JsString.toLowerCase (title a))
                              (JsString.toLowerCase (title b)) <= 0)
      (filteredList (handleSort codeUnitCompare "title" shop)).
Proof.
  pose proof (sort_toggle_flips_and_returns codeUnitCompare "title" shop
                codeUnitCompare_consistent) as H.
  cbv zeta in H. destruct H as (_ & _ & _ & H & Hord).
  assert (Hasc : direction (sortConfig (handleSort codeUnitCompare "title" shop)) = asc)
    by (vm_compute; reflexivity).
  destruct (Hord Hasc) as (_ & _ & _ & _ & _ & _ & Htitle).
  exact (conj codeUnitCompare_consistent
           (conj Hasc (conj (H Hasc) (Htitle eq_refl)))).
Defined.

(** Titles are ordered in lower case: Banana, apple, Cherry, Apricot come
    out as apple, Apricot, Banana, Cherry, and the next click reverses
    them. *)
Example sort_by_title :
  title <$> filteredList (handleSort codeUnitCompare "title" shop)
  = ["apple"; "Apricot"; "Banana"; "Cherry"]
  ∧ title <$> filteredList
      (handleSort codeUnitCompare "title" (handleSort codeUnitCompare "title" shop))
    = ["Cherry"; "Banana"; "Apricot"; "apple"].
Proof. split; vm_compute; reflexivity. Qed.

Lemma current_page_stays_in_range_witness :
  Forall valid_event session
  ∧ page_in_range (run codeUnitCompare session (loaded blank))
  ∧ currentPage (run codeUnitCompare session (loaded blank)) = 2.
Proof.
  assert (H : Forall valid_event session).
  { repeat constructor. }
  pose proof (current_page_stays_in_range codeUnitCompare blank session H) as H'.
  cbv zeta in H'. destruct H' as (Hr & _).
  split; [exact H|]. split; [exact Hr|]. vm_compute. reflexivity.
Defined.

Lemma fetch_failure_shows_error_witness :
  fetched (Response 500 None) = None
  ∧ tableBody
      (page (getAll_settle (Response 500 None)
               (run codeUnitCompare (User <$> [SearchInput "a"; NextClick]) (loaded blank))))
    = ErrorRow.
Proof.
  assert (H : fetched (Response 500 None) = None) by reflexivity.
  pose proof (fetch_failure_shows_error codeUnitCompare blank
                [SearchInput "a"; NextClick] (Response 500 None) H) as H'.
  cbv zeta in H'. destruct H' as (Hb & _).
  exact (conj H Hb).
Defined.

(** * Further properties of the script *)

(** ** What the search matches *)

Lemma append_nil_l (b : string) : "" +:+ b = b.
Proof. reflexivity. Qed.

Lemma append_cons (c : ascii) (a b : string) : String c a +:+ b = String c (a +:+ b).
Proof. reflexivity. Qed.

Lemma startsWith_spec s t :
  JsString.startsWith s t = true ↔ ∃ b, s = t +:+ b.
Proof.
  unfold JsString.startsWith. revert s.
  induction t as [|c t IH]; intros s.
  - destruct s; simpl; split; eauto.
  - destruct s as [|d s]; simpl.
    + split; [done|]. intros [b E]. by rewrite append_cons in E.
    + destruct (ascii_dec c d) as [->|Hne].
      * rewrite IH. split; intros [b E]; exists b;
          rewrite append_cons in *; congruence.
      * split; [done|]. intros [b E]. rewrite append_cons in E. congruence.
Qed.

Lemma includes_spec s t :
  JsString.includes s t = true ↔ ∃ a b, s = a +:+ t +:+ b.
Proof.
  induction s as [|c s IH].
  - cbn [JsString.includes]. rewrite orb_false_r, startsWith_spec. split.
    + intros [b E]. by exists "", b.
    + intros ([|d a] & b & E); [by exists b|by rewrite append_cons in E].
  - cbn [JsString.includes]. rewrite orb_true_iff, startsWith_spec, IH. split.
    + intros [[b E]|(a & b & E)].
      * by exists "", b.
      * exists (String c a), b. by rewrite append_cons, E.
    + intros ([|d a] & b & E).
      * left. by exists b.
      * right. exists a, b. rewrite append_cons in E. congruence.
Qed.

Lemma elem_of_JsArray_filter {A} (f : A → bool) (l : list A) (x : A) :
  x ∈ JsArray.filter f l ↔ x ∈ l ∧ f x = true.
Proof. unfold JsArray.filter. rewrite !list_elem_of_In. apply filter_In. Qed.

(** X1.  A product is kept by [filterProducts] exactly when it is in the
    full list and the term occurs, as it is, somewhere in its lower-cased
    title. *)
Theorem filterProducts_keeps_substring_matches (t : string) (s : state) (p : product) :
  p ∈ filteredList (filterProducts t s)
  ↔ p ∈ allList s ∧ ∃ a b, JsString.toLowerCase (title p) = a +:+ t +:+ b.
Proof.
  rewrite filterProducts_includes, elem_of_JsArray_filter.
  by rewrite includes_spec.
Qed.

(** ** Trimming *)

Lemma trimStart_idemp s : JsString.trimStart (JsString.trimStart s) = JsString.trimStart s.
Proof.
  induction s as [|c s IH]; simpl; [done|].
  destruct (JsString.isWhiteSpace c) eqn:E; [done|]. simpl. by rewrite E.
Qed.

Lemma trimEnd_cons c s :
  JsString.trimEnd (String c s)
  = match JsString.trimEnd s with
    | EmptyString => if JsString.isWhiteSpace c then EmptyString else String c EmptyString
    | r => String c r
    end.
Proof. reflexivity. Qed.

Lemma trimEnd_idemp s : JsString.trimEnd (JsString.trimEnd s) = JsString.trimEnd s.
Proof.
  induction s as [|c s IH]; simpl; [done|].
  destruct (JsString.trimEnd s) as [|d r] eqn:E.
  - destruct (JsString.isWhiteSpace c) eqn:Ec; simpl; [done|]. by rewrite Ec.
  - by rewrite trimEnd_cons, IH.
Qed.

Lemma trimStart_trimEnd s :
  JsString.trimStart (JsString.trimEnd s) = JsString.trimEnd (JsString.trimStart s).
Proof.
  induction s as [|c s IH]; simpl; [done|].
  destruct (JsString.isWhiteSpace c) eqn:Ec.
  - destruct (JsString.trimEnd s) as [|d r] eqn:E.
    + by rewrite <- IH.
    + rewrite <- IH. simpl. by rewrite Ec.
  - simpl. destruct (JsString.trimEnd s) as [|d r] eqn:E; simpl; by rewrite Ec.
Qed.

Lemma trim_idemp s : JsString.trim (JsString.trim s) = JsString.trim s.
Proof.
  unfold JsString.trim.
  by rewrite trimStart_trimEnd, trimStart_idemp, trimEnd_idemp.
Qed.

Lemma trimStart_allWhiteSpace s : allWhiteSpace s = true → JsString.trimStart s = "".
Proof.
  induction s as [|c s IH]; simpl; [done|].
  intros [-> H]%andb_true_iff. auto.
Qed.

Lemma allWhiteSpace_toLowerCase s :
  allWhiteSpace (JsString.toLowerCase s) = allWhiteSpace s.
Proof. induction s; simpl; by rewrite ?isWhiteSpace_toLowerChar, ?IHs. Qed.

(** X2.  Typing only white space in the search box shows the full list, in
    its order. *)
Theorem blank_search_shows_full_list (value : string) (s : state) :
  allWhiteSpace value = true →
  filteredList (onSearchInput value s) = allList s.
Proof.
  intros H. unfold onSearchInput, JsString.trim.
  rewrite trimStart_allWhiteSpace by (by rewrite allWhiteSpace_toLowerCase).
  by rewrite filterProducts_filteredList.
Qed.

Lemma blank_search_shows_full_list_witness :
  allWhiteSpace "   " = true
  ∧ filteredList (onSearchInput "   " shop) = allList shop.
Proof.
  assert (H : allWhiteSpace "   " = true) by reflexivity.
  exact (conj H (blank_search_shows_full_list "   " shop H)).
Defined.

(** X3.  The search listener normalises its input: searching for the
    lower-cased text, or for the trimmed text, gives the same state as
    searching for the text as typed. *)
Theorem search_ignores_case_and_padding (value : string) (s : state) :
  onSearchInput (JsString.toLowerCase value) s = onSearchInput value s
  ∧ onSearchInput (JsString.trim value) s = onSearchInput value s.
Proof.
  unfold onSearchInput. split.
  - by rewrite toLowerCase_idemp.
  - by rewrite toLowerCase_trim, trim_idemp.
Qed.

(** ** Rows and rendering *)

(** X4.  The image of a row is always an absolute URL: it starts with
    [http] and has no white space around it, whatever the product's
    [images] field holds. *)
Theorem imageUrl_is_absolute (p : product) :
  JsString.startsWith (imageUrl p) "http" = true
  ∧ JsString.trim (imageUrl p) = imageUrl p.
Proof.
  assert (Hp : JsString.startsWith placeholder "http" = true
               ∧ JsString.trim placeholder = placeholder)
    by (split; vm_compute; reflexivity).
  unfold imageUrl. destruct (images p) as [| |[|u us]]; try exact Hp.
  cbv zeta.
  destruct (JsString.truthy (JsString.trim u)); [|exact Hp].
  destruct (JsString.startsWith (JsString.trim u) "http") eqn:E; [|exact Hp].
  cbn [negb orb]. split; [exact E|apply trim_idemp].
Qed.

(** X6.  Rendering twice is rendering once. *)
Theorem renderTable_idempotent (s : state) :
  renderTable (renderTable s) = renderTable s.
Proof.
  destruct (renderTable_untouched s) as [H1 H2].
  destruct (renderTable_page s) as [v E]. rewrite E in H1, H2.
  rewrite E at 1. by apply renderTable_set_page.
Qed.

(** ** Pages *)

Lemma slice_forward {A} (a : list A) (start d : Z) :
  0 <= start → 0 <= d →
  JsArray.slice a start (start + d)
  = take (Z.to_nat d) (drop (Z.to_nat start) a).
Proof.
  intros Hs Hd. unfold JsArray.slice, JsArray.relativeIndex.
  rewrite (proj2 (Z.ltb_ge start 0)) by lia.
  rewrite (proj2 (Z.ltb_ge (start + d) 0)) by lia.
  destruct (Z.le_gt_cases (Z.of_nat (length a)) start) as [Hge|Hlt].
  - rewrite !Z.min_r by lia. rewrite Z.sub_diag.
    rewrite (drop_ge a (Z.to_nat start)) by lia. by rewrite !take_nil.
  - rewrite (Z.min_l start) by lia.
    destruct (Z.le_gt_cases (start + d) (Z.of_nat (length a))) as [Hin|Hout].
    + rewrite Z.min_l by lia. f_equal. lia.
    + rewrite Z.min_r by lia.
      rewrite !take_ge; [done| |]; rewrite length_drop; lia.
Qed.

Lemma pageAt_take_drop k s :
  1 <= k → 0 < itemsPerPage s →
  pageAt k s
  = take (Z.to_nat (itemsPerPage s))
         (drop (Z.to_nat ((k - 1) * itemsPerPage s)) (filteredList s)).
Proof.
  intros Hk Hn. unfold pageAt, pageData, endIndex, startIndex.
  change (filteredList (set_currentPage k s)) with (filteredList s).
  cbn [currentPage itemsPerPage set_currentPage].
  apply slice_forward; nia.
Qed.

Lemma pageData_pageAt s : pageData s = pageAt (currentPage s) s.
Proof. reflexivity. Qed.

Lemma chunks_concat {A} (m pages : nat) (l : list A) :
  (0 < m)%nat → (length l ≤ pages * m)%nat →
  concat ((λ i : nat, take m (drop (i * m) l)) <$> seq 0 pages) = l.
Proof.
  intros Hm. revert l. induction pages as [|n IH]; intros l Hl.
  - destruct l; [done|]. simpl in Hl. lia.
  - cbn [seq fmap list_fmap concat]. rewrite <- fmap_S_seq, <- list_fmap_compose.
    rewrite drop_0.
    erewrite (list_fmap_ext _ (λ i, take m (drop (i * m) (drop m l)))).
    + rewrite IH; [apply take_drop|]. rewrite length_drop. lia.
    + intros j i _. cbn [compose]. rewrite drop_drop. f_equal; f_equal; lia.
Qed.

Lemma totalPages_bounds s :
  0 < itemsPerPage s →
  (totalPages s - 1) * itemsPerPage s < filteredCount s <= totalPages s * itemsPerPage s.
Proof. intros H. by apply Math_ceil_div_spec. Qed.

Lemma totalPages_nonneg s : 0 < itemsPerPage s → 0 <= totalPages s.
Proof.
  intros H. pose proof (totalPages_bounds s H).
  assert (0 <= filteredCount s) by (unfold filteredCount; lia). nia.
Qed.

(** X7.  With a positive page size the pages 1 to [totalPages] partition
    the filtered list: their slices, one after the other, are the list. *)
Theorem pages_partition_filtered_list (s : state) :
  0 < itemsPerPage s →
  concat ((λ k, pageAt k s) <$> seqZ 1 (totalPages s)) = filteredList s.
Proof.
  intros Hn. unfold seqZ. rewrite <- list_fmap_compose.
  erewrite (list_fmap_ext _
    (λ i : nat, take (Z.to_nat (itemsPerPage s))
                     (drop (i * Z.to_nat (itemsPerPage s)) (filteredList s)))).
  - apply chunks_concat; [lia|].
    pose proof (totalPages_bounds s Hn) as Hb.
    pose proof (totalPages_nonneg s Hn). unfold filteredCount in Hb. nia.
  - intros j i _. cbn [compose]. rewrite pageAt_take_drop by lia.
    f_equal; f_equal; nia.
Qed.

Lemma pages_partition_filtered_list_witness :
  0 < itemsPerPage warehouse
  ∧ concat ((λ k, pageAt k warehouse) <$> seqZ 1 (totalPages warehouse))
    = filteredList warehouse.
Proof.
  assert (H : 0 < itemsPerPage warehouse) by (vm_compute; reflexivity).
  exact (conj H (pages_partition_filtered_list warehouse H)).
Defined.

(** X8.  With a positive page size, [totalPages] is the least number of
    pages that hold the filtered list: that many pages suffice, one fewer
    do not, and it is 0 exactly for the empty list. *)
Theorem totalPages_is_least_cover (s : state) :
  0 < itemsPerPage s →
  filteredCount s <= totalPages s * itemsPerPage s
  ∧ (totalPages s - 1) * itemsPerPage s < filteredCount s
  ∧ (totalPages s = 0 ↔ filteredList s = []).
Proof.
  intros Hn. pose proof (totalPages_bounds s Hn) as Hb.
  pose proof (totalPages_nonneg s Hn) as H0.
  split; [lia|]. split; [lia|].
  unfold filteredCount in *. split.
  - intros E. rewrite E in Hb. destruct (filteredList s); [done|]. simpl in Hb. lia.
  - intros E. rewrite E in Hb. simpl in Hb. nia.
Qed.

Lemma totalPages_is_least_cover_witness :
  0 < itemsPerPage warehouse
  ∧ filteredCount warehouse <= totalPages warehouse * itemsPerPage warehouse.
Proof.
  assert (H : 0 < itemsPerPage warehouse) by (vm_compute; reflexivity).
  destruct (totalPages_is_least_cover warehouse H) as [Hc _].
  exact (conj H Hc).
Defined.

Lemma pageAt_length k s :
  1 <= k → 0 < itemsPerPage s →
  Z.of_nat (length (pageAt k s))
  = Z.max 0 (Z.min (itemsPerPage s) (filteredCount s - (k - 1) * itemsPerPage s)).
Proof.
  intros Hk Hn. rewrite pageAt_take_drop by done.
  rewrite length_take, length_drop. unfold filteredCount. nia.
Qed.

(** X9.  With a positive page size: every page from 1 to [totalPages] shows
    at least one product, every page before the last shows exactly
    [itemsPerPage] products, and a page after the last shows none. *)
Theorem pages_in_range_are_filled (s : state) (k : Z) :
  0 < itemsPerPage s →
  1 <= k →
  (k <= totalPages s → pageAt k s ≠ [])
  ∧ (k < totalPages s → Z.of_nat (length (pageAt k s)) = itemsPerPage s)
  ∧ (totalPages s < k → pageAt k s = []).
Proof.
  intros Hn Hk. pose proof (totalPages_bounds s Hn) as Hb.
  pose proof (pageAt_length k s Hk Hn) as Hl.
  split; [|split]; intros H.
  - intros E. rewrite E in Hl. simpl in Hl. nia.
  - nia.
  - destruct (pageAt k s); [done|]. simpl in Hl. nia.
Qed.

Lemma pages_in_range_are_filled_witness :
  (0 < itemsPerPage warehouse ∧ 1 <= 3 ∧ 3 <= totalPages warehouse)
  ∧ pageAt 3 warehouse ≠ [].
Proof.
  assert (H : 0 < itemsPerPage warehouse) by (vm_compute; reflexivity).
  assert (H1 : 1 <= 3) by lia.
  assert (H3 : 3 <= totalPages warehouse) by (vm_compute; discriminate).
  destruct (pages_in_range_are_filled warehouse 3 H H1) as [Hf _].
  exact (conj (conj H (conj H1 H3)) (Hf H3)).
Defined.

(** ** The pager's controls *)

Lemma previousPage_currentPage s :
  currentPage (previousPage s)
  = if currentPage s >? 1 then currentPage s - 1 else currentPage s.
Proof.
  unfold previousPage. destruct (currentPage s >? 1); [|done].
  cbn [currentPage set_page]. by rewrite renderTable_currentPage.
Qed.

Lemma nextPage_currentPage s :
  currentPage (nextPage s)
  = if currentPage s <? totalPages s then currentPage s + 1 else currentPage s.
Proof.
  unfold nextPage. destruct (currentPage s <? totalPages s); [|done].
  cbn [currentPage set_page]. by rewrite renderTable_currentPage.
Qed.

Lemma previousPage_fixed s : previousPage s = s ↔ currentPage s <= 1.
Proof.
  split.
  - intros E. pose proof (previousPage_currentPage s) as H. rewrite E in H.
    rewrite Z.gtb_ltb in H. destruct (Z.ltb_spec 1 (currentPage s)); lia.
  - intros H. unfold previousPage. rewrite Z.gtb_ltb.
    by rewrite (proj2 (Z.ltb_ge 1 (currentPage s))) by lia.
Qed.

Lemma nextPage_fixed s : nextPage s = s ↔ totalPages s <= currentPage s.
Proof.
  split.
  - intros E. pose proof (nextPage_currentPage s) as H. rewrite E in H.
    destruct (Z.ltb_spec (currentPage s) (totalPages s)); lia.
  - intros H. unfold nextPage.
    by rewrite (proj2 (Z.ltb_ge (currentPage s) (totalPages s))) by lia.
Qed.

(** X10.  With a positive page size and a current page of at least 1,
    [renderTable] disables the previous button exactly when [previousPage]
    would change nothing, and the next button exactly when [nextPage] would
    change nothing. *)
Theorem buttons_agree_with_navigation (s : state) :
  0 < itemsPerPage s →
  1 <= currentPage s →
  (prevBtn_disabled (page (renderTable s)) = true
   ↔ previousPage (renderTable s) = renderTable s)
  ∧ (nextBtn_disabled (page (renderTable s)) = true
     ↔ nextPage (renderTable s) = renderTable s).
Proof.
  intros Hn Hk. destruct (renderTable_controls s) as (_ & Hp & Hx).
  rewrite Hp, Hx, previousPage_fixed, nextPage_fixed.
  rewrite renderTable_currentPage, renderTable_totalPages.
  rewrite Z.eqb_eq, orb_true_iff, Z.geb_le, Z.eqb_eq.
  split; [lia|]. split; [|tauto].
  intros [H|H]; [done|].
  unfold totalPages. rewrite H, Math_ceil_div_zero. lia.
Qed.

Lemma buttons_agree_with_navigation_witness :
  (0 < itemsPerPage warehouse ∧ 1 <= currentPage warehouse)
  ∧ nextPage (renderTable warehouse) ≠ renderTable warehouse.
Proof.
  assert (H : 0 < itemsPerPage warehouse) by (vm_compute; reflexivity).
  assert (H1 : 1 <= currentPage warehouse) by (vm_compute; discriminate).
  destruct (buttons_agree_with_navigation warehouse H H1) as [_ [_ Hx]].
  split; [exact (conj H H1)|].
  intros E. apply Hx in E. vm_compute in E. discriminate.
Defined.

(** X11.  With a positive page size and the current page in range,
    [renderTable] shows the no-data row exactly when the filtered list is
    empty; when it is not, the page text is the current page out of
    [totalPages], with the current page among them. *)
Theorem no_data_row_iff_no_results (s : state) :
  0 < itemsPerPage s →
  page_in_range s →
  (tableBody (page (renderTable s)) = NoDataRow ↔ filteredList s = [])
  ∧ (filteredList s ≠ [] →
     pageInfo (page (renderTable s)) = PageOf (currentPage s) (totalPages s)
     ∧ 1 <= currentPage s <= totalPages s).
Proof.
  intros Hn [Hlo Hhi].
  pose proof (totalPages_bounds s Hn) as Hb.
  pose proof (pageAt_length (currentPage s) s Hlo Hn) as Hl.
  rewrite <- pageData_pageAt in Hl.
  assert (Hcnt : 0 <= filteredCount s) by (unfold filteredCount; lia).
  assert (Hoff : 0 <= (currentPage s - 1) * itemsPerPage s) by nia.
  assert (Hstart : filteredCount s = 0
                   ∨ (currentPage s - 1) * itemsPerPage s < filteredCount s).
  { destruct (Z.le_gt_cases (totalPages s) 0) as [Ht|Ht].
    - assert (currentPage s = 1) as -> by lia. lia.
    - right. assert ((currentPage s - 1) * itemsPerPage s
                     <= (totalPages s - 1) * itemsPerPage s) by nia. lia. }
  assert (Hc : filteredCount s = 0 ↔ filteredList s = []).
  { unfold filteredCount. destruct (filteredList s); simpl; split; (done || lia). }
  rewrite renderTable_tableBody. destruct (renderTable_controls s) as (Hi & _).
  rewrite Hi. clear Hi.
  split.
  - destruct (Z.eqb_spec (Z.of_nat (length (pageData s))) 0) as [E|E].
    + split; [intros _|done]. apply Hc. lia.
    + split; [done|]. intros E'. apply Hc in E'. lia.
  - intros Hne. assert (filteredCount s ≠ 0) by tauto.
    rewrite (proj2 (Z.eqb_neq _ _)) by done. split; [done|].
    split; [done|]. destruct (Z.le_gt_cases (totalPages s) 0); [nia|lia].
Qed.

Lemma no_data_row_iff_no_results_witness :
  (0 < itemsPerPage shop ∧ page_in_range shop)
  ∧ tableBody (page (renderTable shop)) ≠ NoDataRow.
Proof.
  assert (H : 0 < itemsPerPage shop) by (vm_compute; reflexivity).
  assert (H1 : page_in_range shop) by (split; vm_compute; discriminate).
  destruct (no_data_row_iff_no_results shop H H1) as [Hx _].
  split; [exact (conj H H1)|].
  intros E. apply Hx in E. vm_compute in E. discriminate.
Defined.

(** ** Going forth and back *)

Ltac fields :=
  cbn [store allProducts filteredProducts currentPage itemsPerPage sortConfig page
       tableBody pageInfo prevBtn_disabled nextBtn_disabled loading_active scroll
       set_store set_allProducts set_filteredProducts set_currentPage
       set_itemsPerPage set_sortConfig set_page
       set_tableBody set_controls set_loading set_scroll].

(** [renderTable] passes the scroll position on and overwrites the rest of
    the view but the loading indicator. *)
Lemma renderTable_set_page_scroll v s :
  loading_active v = loading_active (page s) →
  renderTable (set_page v s)
  = set_page (set_scroll (scroll v) (page (renderTable s))) (renderTable s).
Proof.
  intros H. unfold renderTable.
  change (pageData (set_page v s)) with (pageData s).
  change (startIndex (set_page v s)) with (startIndex s).
  destruct (Z.of_nat (length (pageData s)) =? 0);
    unfold updatePaginationControls, totalPages, filteredCount, filteredList,
      contents; fields;
    unfold set_page, set_controls, set_tableBody, set_scroll; fields;
    by rewrite H.
Qed.

Lemma set_currentPage_same s : set_currentPage (currentPage s) s = s.
Proof. by destruct s. Qed.

(** X12.  With a positive page size, from a page that is not the last (and
    is at least 1), going to the next page and back ends in the state that
    rendering the starting state gives, scrolled to the top: the same current
    page, the same slice and the same controls. *)
Theorem next_then_previous_returns (s : state) :
  0 < itemsPerPage s →
  1 <= currentPage s →
  currentPage s < totalPages s →
  previousPage (nextPage s)
  = set_page (set_scroll (0, 0) (page (renderTable s))) (renderTable s).
Proof.
  intros _ Hlo Hhi. unfold nextPage.
  rewrite (proj2 (Z.ltb_lt _ _) Hhi).
  destruct (renderTable_untouched (set_currentPage (currentPage s + 1) s)) as [Hl _].
  destruct (renderTable_page (set_currentPage (currentPage s + 1) s)) as [v E].
  rewrite E in *. clear E. fields. cbn [loading_active page set_page set_currentPage] in Hl.
  unfold previousPage. fields.
  rewrite (proj2 (Z.gtb_gt _ _)) by lia.
  rewrite Z.add_simpl_r.
  change (set_currentPage (currentPage s)
            (set_page (set_scroll (0, 0) v)
               (set_page v (set_currentPage (currentPage s + 1) s))))
    with (set_page (set_scroll (0, 0) v) (set_currentPage (currentPage s) s)).
  rewrite set_currentPage_same.
  rewrite renderTable_set_page_scroll by exact Hl.
  reflexivity.
Qed.

Lemma next_then_previous_returns_witness :
  (0 < itemsPerPage warehouse
   ∧ 1 <= currentPage warehouse ∧ currentPage warehouse < totalPages warehouse)
  ∧ currentPage (previousPage (nextPage warehouse)) = 1.
Proof.
  assert (H0 : 0 < itemsPerPage warehouse) by (vm_compute; reflexivity).
  assert (H1 : 1 <= currentPage warehouse) by (vm_compute; discriminate).
  assert (H2 : currentPage warehouse < totalPages warehouse) by (vm_compute; reflexivity).
  split; [exact (conj H0 (conj H1 H2))|].
  rewrite (next_then_previous_returns warehouse H0 H1 H2).
  vm_compute. reflexivity.
Defined.

(** ** More on sorting *)

Section Sorting.
Variable localeCompare : string → string → Z.

(** X13.  A click on a sort button keeps the products shown and reorders
    them: the filtered list after [handleSort] is a permutation of the one
    before and, for a consistent [localeCompare], it is ordered by the
    comparator of the new sort configuration. *)
Theorem handleSort_permutes_and_orders (col : string) (s : state) :
  filteredList (handleSort localeCompare col s) ≡ₚ filteredList s
  ∧ (consistent localeCompare →
     StronglySorted
       (λ a b, compareProducts localeCompare
                 (sortConfig (handleSort localeCompare col s)) a b <= 0)
       (filteredList (handleSort localeCompare col s))).
Proof.
  rewrite handleSort_filteredList. split; [apply sort_perm|].
  intros Hc. apply sort_sorted. by apply compareProducts_consistent.
Qed.

(** X14.  A click on the price button when another column (or none) is
    active leaves the prices ascending; a click on it when prices are the
    active column and ascending leaves them descending. *)
Theorem price_click_orders_prices (s : state) :
  (column (sortConfig s) ≠ Some "price" →
   Sorted Z.le (price <$> filteredList (handleSort localeCompare "price" s)))
  ∧ (sortConfig s = byPrice asc →
     Sorted (flip Z.le) (price <$> filteredList (handleSort localeCompare "price" s))).
Proof.
  destruct (handleSort_sortConfig localeCompare "price" s) as [Hcol Hdir].
  rewrite handleSort_filteredList.
  destruct (sortConfig (handleSort localeCompare "price" s)) as [c d].
  cbn [column direction] in Hcol, Hdir. subst c. split.
  - intros Hne. rewrite decide_False in Hdir by done. subst d.
    apply prices_ascending.
  - intros E. rewrite E in Hdir. rewrite decide_True in Hdir by done.
    cbn [direction byPrice] in Hdir. subst d. apply prices_descending.
Qed.

Lemma sort_not_after {A} (cmp : A → A → Z) (l : list A) :
  (∀ a b, cmp a b <= 0) → JsArray.sort cmp l = l.
Proof.
  intros H. induction l as [|x l IH]; [done|].
  cbn [JsArray.sort]. rewrite IH. destruct l as [|y l']; [done|].
  cbn [JsArray.insert]. by rewrite (proj2 (Z.ltb_ge 0 (cmp x y))).
Qed.

(** X15.  A click on a sort button whose column is neither [title] nor
    [price] leaves the order of the filtered list as it is. *)
Theorem unknown_column_keeps_order (col : string) (s : state) :
  col ≠ "title" → col ≠ "price" →
  filteredList (handleSort localeCompare col s) = filteredList s.
Proof.
  intros Ht Hp. rewrite handleSort_filteredList.
  destruct (handleSort_sortConfig localeCompare col s) as [Hcol _].
  apply sort_not_after. intros a b. unfold compareProducts, columnIs.
  rewrite Hcol.
  rewrite (proj2 (String.eqb_neq col "title") Ht).
  by rewrite (proj2 (String.eqb_neq col "price") Hp).
Qed.

(** X16.  Sorting by price is stable: the products of any one price keep
    the order they had, ascending or descending. *)
Theorem price_sort_keeps_order_of_equal_prices (d : sort_direction) (q : Z) (s : state) :
  List.filter (λ p, price p =? q)
    (filteredList (sortProducts localeCompare (set_sortConfig (byPrice d) s)))
  = List.filter (λ p, price p =? q) (filteredList s).
Proof.
  rewrite sortProducts_filteredList.
  change (sortConfig (set_sortConfig ?c _)) with c.
  change (filteredList (set_sortConfig ?c ?x)) with (filteredList x).
  pose proof (sort_stable (compareProducts localeCompare (byPrice d))
                (compareProducts_price_consistent localeCompare d)
                (priced q) (filteredList s)) as H.
  assert (Hf : ∀ l, List.filter (λ p, price p =? q) l
                    = List.filter (λ y, compareProducts localeCompare (byPrice d)
                                          (priced q) y =? 0) l).
  { intros l. apply filter_ext. intros y. unfold byPrice.
    rewrite compareProducts_price. cbn [price priced item].
    destruct d, (Z.eqb_spec (price y) q); symmetry;
      (apply Z.eqb_eq || apply Z.eqb_neq); lia. }
  by rewrite !Hf.
Qed.

(** X17.  Sorting is stable for every column: for a consistent
    [localeCompare], the products the comparator ties with a given product
    keep the order they had. *)
Theorem sortProducts_is_stable (z : product) (s : state) :
  consistent localeCompare →
  List.filter (λ y, compareProducts localeCompare (sortConfig s) z y =? 0)
    (filteredList (sortProducts localeCompare s))
  = List.filter (λ y, compareProducts localeCompare (sortConfig s) z y =? 0)
      (filteredList s).
Proof.
  intros Hc. rewrite sortProducts_filteredList.
  apply sort_stable. by apply compareProducts_consistent.
Qed.

Lemma sort_idemp {A} (cmp : A → A → Z) (l : list A) :
  consistent cmp → JsArray.sort cmp (JsArray.sort cmp l) = JsArray.sort cmp l.
Proof.
  intros Hc. apply (sorted_stable_unique cmp Hc); try by apply sort_sorted.
  intros z. by rewrite (sort_stable cmp Hc).
Qed.

(** X18.  Sorting a sorted list changes nothing: for a consistent
    [localeCompare], [sortProducts] twice is [sortProducts] once. *)
Theorem sortProducts_idempotent (s : state) :
  consistent localeCompare →
  sortProducts localeCompare (sortProducts localeCompare s)
  = sortProducts localeCompare s.
Proof.
  intros Hc. unfold sortProducts at 1.
  rewrite sortProducts_filteredList.
  change (sortConfig (sortProducts localeCompare s)) with (sortConfig s).
  change (filteredProducts (sortProducts localeCompare s)) with (filteredProducts s).
  rewrite sort_idemp by (by apply compareProducts_consistent).
  unfold sortProducts, set_store. fields. by rewrite insert_insert_eq.
Qed.

End Sorting.

Lemma handleSort_permutes_and_orders_witness :
  consistent codeUnitCompare
  ∧ StronglySorted
      (λ a b, compareProducts codeUnitCompare
                (sortConfig (handleSort codeUnitCompare "title" shop)) a b <= 0)
      (filteredList (handleSort codeUnitCompare "title" shop)).
Proof.
  destruct (handleSort_permutes_and_orders codeUnitCompare "title" shop) as [_ H].
  exact (conj codeUnitCompare_consistent (H codeUnitCompare_consistent)).
Defined.

Lemma price_click_orders_prices_witness :
  column (sortConfig shop) ≠ Some "price"
  ∧ Sorted Z.le (price <$> filteredList (handleSort codeUnitCompare "price" shop)).
Proof.
  assert (H : column (sortConfig shop) ≠ Some "price") by (vm_compute; discriminate).
  destruct (price_click_orders_prices codeUnitCompare shop) as [Hasc _].
  exact (conj H (Hasc H)).
Defined.

Lemma unknown_column_keeps_order_witness :
  ("id" ≠ "title" ∧ "id" ≠ "price")
  ∧ filteredList (handleSort codeUnitCompare "id" shop) = filteredList shop.
Proof.
  assert (H1 : "id" ≠ "title") by discriminate.
  assert (H2 : "id" ≠ "price") by discriminate.
  exact (conj (conj H1 H2) (unknown_column_keeps_order codeUnitCompare "id" shop H1 H2)).
Defined.

Lemma sortProducts_is_stable_witness :
  consistent codeUnitCompare
  ∧ List.filter (λ y, compareProducts codeUnitCompare (sortConfig shop) (priced 10) y =? 0)
      (filteredList (sortProducts codeUnitCompare shop))
    = List.filter (λ y, compareProducts codeUnitCompare (sortConfig shop) (priced 10) y =? 0)
        (filteredList shop).
Proof.
  exact (conj codeUnitCompare_consistent
           (sortProducts_is_stable codeUnitCompare (priced 10) shop
              codeUnitCompare_consistent)).
Defined.

Lemma sortProducts_idempotent_witness :
  consistent codeUnitCompare
  ∧ sortProducts codeUnitCompare (sortProducts codeUnitCompare shop)
    = sortProducts codeUnitCompare shop.
Proof.
  exact (conj codeUnitCompare_consistent
           (sortProducts_idempotent codeUnitCompare shop codeUnitCompare_consistent)).
Defined.

(** ** Events one after the other *)

Lemma alloc_lookup_new a h : (alloc a h).2 !! (alloc a h).1 = Some a.
Proof. unfold alloc; simpl. apply lookup_insert_eq. Qed.

(** As [new_array], with the contents of the new array. *)
Ltac written_array l h :=
  match goal with
  | |- context [alloc ?a ?h0] =>
      let W := fresh "Hnew" in
      pose proof (alloc_lookup_new a h0) as W;
      new_array l h; cbn [fst snd] in W
  end.

Section Sessions.
Variable localeCompare : string → string → Z.

Lemma run_users_separate us s :
  separate s → separate (run localeCompare (User <$> us) s).
Proof. apply run_separate. Qed.

(** X19.  A search always filters the full list: in every state the page
    reaches, what a search shows does not depend on the searches, sorts,
    page-size changes and navigation the user did before it. *)
Theorem search_ignores_earlier_user_events
    (v0 : view) (es : list event) (us : list user_event) (value : string) :
  let s := run localeCompare es (loaded v0) in
  filteredList (onSearchInput value (run localeCompare (User <$> us) s))
  = filteredList (onSearchInput value s).
Proof.
  intros s. unfold onSearchInput. rewrite !filterProducts_includes.
  rewrite run_users_allList; [done|]. apply reachable_separate.
Qed.

Lemma user_step_loading u s :
  loading_active (page (user_step localeCompare u s)) = loading_active (page s).
Proof.
  destruct u; simpl.
  - unfold onSearchInput, filterProducts. destruct (alloc _ _).
    by rewrite (proj1 (renderTable_untouched _)).
  - unfold onItemsPerPageChange. by rewrite (proj1 (renderTable_untouched _)).
  - unfold handleSort. by rewrite (proj1 (renderTable_untouched _)).
  - unfold previousPage. destruct (currentPage s >? 1); [|done].
    fields. by rewrite (proj1 (renderTable_untouched _)).
  - unfold nextPage. destruct (currentPage s <? totalPages s); [|done].
    fields. by rewrite (proj1 (renderTable_untouched _)).
Qed.

(** X20.  Only [getAll] moves the loading indicator: it is shown from the
    moment the page has loaded, no user event hides it, and it is hidden
    once the request has settled, whatever the outcome. *)
Theorem loading_indicator_follows_request
    (v0 : view) (us : list user_event) (r : fetch_outcome) :
  let pending := run localeCompare (User <$> us) (loaded v0) in
  loading_active (page pending) = true
  ∧ loading_active (page (getAll_settle r pending)) = false
  ∧ (∀ u s, loading_active (page (user_step localeCompare u s))
            = loading_active (page s)).
Proof.
  intros pending. split; [|split].
  - subst pending. generalize (loaded v0), (eq_refl : loading_active (page (loaded v0)) = true).
    unfold run. induction us as [|u us IH]; intros s Hs; [done|].
    csimpl. apply IH. by rewrite user_step_loading.
  - apply getAll_settle_loading.
  - apply user_step_loading.
Qed.

(** X21.  A successful fetch puts the products received into two new,
    different arrays, [allProducts] and [filteredProducts], shows them from
    page 1 and hides the loading indicator; it keeps the page size and the
    sort configuration, and leaves the arrays that existed before alone. *)
Theorem fetch_success_loads_products (r : fetch_outcome) (ps : list product) (s : state) :
  fetched r = Some ps →
  let s' := getAll_settle r s in
  allList s' = ps
  ∧ filteredList s' = ps
  ∧ currentPage s' = 1
  ∧ loading_active (page s') = false
  ∧ itemsPerPage s' = itemsPerPage s
  ∧ sortConfig s' = sortConfig s
  ∧ allProducts s' ≠ filteredProducts s'
  ∧ (allProducts s' ∉ dom (store s))
  ∧ (filteredProducts s' ∉ dom (store s))
  ∧ (∀ l, l ∈ dom (store s) → store s' !! l = store s !! l).
Proof.
  intros E s'. subst s'. unfold getAll_settle. rewrite E.
  written_array la h1. written_array lf h2.
  unfold showLoading, allList, filteredList, contents. fields.
  rewrite renderTable_store, renderTable_allProducts, renderTable_filteredProducts,
    renderTable_currentPage, renderTable_itemsPerPage, renderTable_sortConfig.
  fields.
  assert (Hla : la ∈ dom h1).
  { rewrite Hdom. apply elem_of_union_l, elem_of_singleton. reflexivity. }
  assert (Hne : la ≠ lf) by (by intros ->).
  rewrite (Hold0 la Hla), Hnew, Hnew0.
  repeat split; try done.
  - intros Hin. apply Hfresh0. rewrite Hdom. by apply elem_of_union_r.
  - intros l Hl. rewrite Hold0; [by apply Hold|].
    rewrite Hdom. by apply elem_of_union_r.
Qed.

End Sessions.

Lemma fetch_success_loads_products_witness :
  fetched (Response 200 (Some catalog)) = Some catalog
  ∧ allList (getAll_settle (Response 200 (Some catalog)) (loaded blank)) = catalog.
Proof.
  assert (H : fetched (Response 200 (Some catalog)) = Some catalog) by reflexivity.
  destruct (fetch_success_loads_products _ _ (loaded blank) H) as [Ha _].
  exact (conj H Ha).
Defined.

(** ** The filtered list and the full list *)

Section Part.
Variable localeCompare : string → string → Z.

Lemma getAll_settle_lists r ps s :
  fetched r = Some ps →
  allList (getAll_settle r s) = ps ∧ filteredList (getAll_settle r s) = ps.
Proof.
  intros E. unfold getAll_settle. rewrite E.
  written_array la h1. written_array lf h2.
  unfold showLoading, allList, filteredList, contents. fields.
  rewrite renderTable_store, renderTable_allProducts, renderTable_filteredProducts.
  fields. rewrite Hold0, Hnew, Hnew0; [done|].
  rewrite Hdom. apply elem_of_union_l, elem_of_singleton. reflexivity.
Qed.

Lemma user_step_part u s :
  separate s →
  filteredList s ⊆+ allList s →
  filteredList (user_step localeCompare u s)
    ⊆+ allList (user_step localeCompare u s).
Proof.
  intros Hs H. rewrite user_step_allList by done.
  destruct u; cbn [user_step].
  - unfold onSearchInput. rewrite filterProducts_includes.
    apply sublist_submseteq, filter_sublist.
  - unfold onItemsPerPageChange. by rewrite renderTable_filteredList.
  - by rewrite handleSort_filteredList, sort_perm.
  - unfold previousPage. destruct (currentPage s >? 1); [|done].
    change (filteredList (set_page ?v ?x)) with (filteredList x).
    by rewrite renderTable_filteredList.
  - unfold nextPage. destruct (currentPage s <? totalPages s); [|done].
    change (filteredList (set_page ?v ?x)) with (filteredList x).
    by rewrite renderTable_filteredList.
Qed.

Lemma step_part e s :
  separate s →
  filteredList s ⊆+ allList s →
  filteredList (step localeCompare e s) ⊆+ allList (step localeCompare e s).
Proof.
  intros Hs H. destruct e as [u|r]; cbn [step]; [by apply user_step_part|].
  destruct (fetched r) as [ps|] eqn:E.
  - destruct (getAll_settle_lists r ps s E) as [-> ->]. done.
  - by rewrite getAll_settle_failure.
Qed.

(** X22.  In every state the page reaches, the filtered list is part of the
    full list: each product is in it at most as often as in the full list,
    so it is never longer. *)
Theorem filtered_is_part_of_all (v0 : view) (es : list event) :
  let s := run localeCompare es (loaded v0) in
  filteredList s ⊆+ allList s
  ∧ (length (filteredList s) ≤ length (allList s))%nat.
Proof.
  intros s.
  assert (H : filteredList s ⊆+ allList s).
  { subst s. assert (H0 : filteredList (loaded v0) ⊆+ allList (loaded v0))
      by (vm_compute; constructor).
    pose proof (init_separate v0 : separate (loaded v0)) as Hs0.
    revert H0 Hs0. generalize (loaded v0). unfold run.
    induction es as [|e es IH]; intros s H Hs; [done|].
    csimpl. apply IH; [by apply step_part | by apply step_separate]. }
  split; [exact H | by apply submseteq_length].
Qed.

(** ** The first page *)

Lemma first_page_slice s :
  currentPage s = 1 → 0 < itemsPerPage s →
  pageData s = take (Z.to_nat (itemsPerPage s)) (filteredList s).
Proof.
  intros E Hn. rewrite pageData_pageAt, E, pageAt_take_drop by lia.
  by rewrite Z.sub_diag, Z.mul_0_l.
Qed.

(** X23.  With a positive page size, a search and a click on a sort button
    show the first [itemsPerPage] products of the new filtered list, and
    choosing a positive page size [n] shows the first [n] products of the
    filtered list, which it leaves as it is. *)
Theorem resets_show_first_items (value col : string) (s : state) :
  0 < itemsPerPage s →
  pageData (onSearchInput value s)
  = take (Z.to_nat (itemsPerPage s)) (filteredList (onSearchInput value s))
  ∧ pageData (handleSort localeCompare col s)
    = take (Z.to_nat (itemsPerPage s)) (filteredList (handleSort localeCompare col s))
  ∧ (∀ n, 0 < n →
          pageData (onItemsPerPageChange n s) = take (Z.to_nat n) (filteredList s)
          ∧ filteredList (onItemsPerPageChange n s) = filteredList s).
Proof.
  intros Hn. split; [|split].
  - assert (E : itemsPerPage (onSearchInput value s) = itemsPerPage s).
    { unfold onSearchInput, filterProducts. destruct (alloc _ _).
      by rewrite renderTable_itemsPerPage. }
    rewrite <- E. apply first_page_slice; [|by rewrite E].
    unfold onSearchInput, filterProducts. destruct (alloc _ _).
    by rewrite renderTable_currentPage.
  - assert (E : itemsPerPage (handleSort localeCompare col s) = itemsPerPage s).
    { unfold handleSort. by rewrite renderTable_itemsPerPage. }
    rewrite <- E. apply first_page_slice; [|by rewrite E].
    unfold handleSort. by rewrite renderTable_currentPage.
  - intros n Hpos.
    assert (E : itemsPerPage (onItemsPerPageChange n s) = n).
    { unfold onItemsPerPageChange. by rewrite renderTable_itemsPerPage. }
    assert (F : filteredList (onItemsPerPageChange n s) = filteredList s).
    { unfold onItemsPerPageChange. by rewrite renderTable_filteredList. }
    split; [|exact F].
    rewrite first_page_slice; [by rewrite E, F| |by rewrite E].
    unfold onItemsPerPageChange. by rewrite renderTable_currentPage.
Qed.

End Part.

Lemma resets_show_first_items_witness :
  0 < itemsPerPage warehouse
  ∧ pageData (onSearchInput "product" warehouse)
    = take (Z.to_nat (itemsPerPage warehouse))
           (filteredList (onSearchInput "product" warehouse)).
Proof.
  assert (H : 0 < itemsPerPage warehouse) by (vm_compute; reflexivity).
  destruct (resets_show_first_items codeUnitCompare "product" "price" warehouse H)
    as [Hs _].
  exact (conj H Hs).
Defined.
